(** * wenyan-mcp: the publishing pipeline and the session dispatcher

    A shallow embedding of [src/publish.ts] and [src/index.ts].

    - JavaScript strings are [string]s; the built-ins the code calls
      ([startsWith], [includes], [replace], [split(..)[0]], [path.basename],
      [path.extname]) are functions of the same name.  [toLowerCase], whose
      case mapping is the engine's, is a field of [World].
    - [async] functions are computations in a state-and-exception monad [M]:
      the state holds the console, the log file, the requests sent to the
      remote collaborators and the two session maps; a [throw] (or a rejected
      promise) is the [Throw] result.
    - Everything outside the two files is a field of [World]: the process
      environment, the remote endpoints, the file system, jsdom, the protocol
      SDK, and the modules [theme.ts] and [main.js]. *)

From Stdlib Require Import String Ascii List ZArith Bool Lia.
From stdpp Require Import base option gmap strings.
Import ListNotations.

Open Scope string_scope.
Open Scope list_scope.
Open Scope Z_scope.

(** ** JavaScript strings *)

Module JS.

(** A string is truthy when it is not empty. *)
Definition truthy (s : string) : bool := negb (String.eqb s "").

(** [undefined] is [None]; [truthyOpt] is the truthiness of a
    [string | undefined]. *)
Definition truthyOpt (o : option string) : bool :=
  match o with
  | Some s => truthy s
  | None => false
  end.

(** [a || b] on [string | undefined]. *)
Definition or (a b : option string) : option string :=
  if truthyOpt a then a else b.

(** [a || b] when [b] is a string. *)
Definition orStr (a : option string) (b : string) : string :=
  match a with
  | Some s => if truthy s then s else b
  | None => b
  end.

(** [l.filter(Boolean)] on a list of [string | null]. *)
Fixpoint filterBoolean (l : list (option string)) : list string :=
  match l with
  | [] => []
  | Some s :: l' => if truthy s then s :: filterBoolean l' else filterBoolean l'
  | None :: l' => filterBoolean l'
  end.

(** [a ?? b]. *)
Definition nullish (a : option string) (b : string) : string :=
  match a with
  | Some s => s
  | None => b
  end.

(** [s.startsWith(p)]. *)
Fixpoint startsWith (s p : string) {struct p} : bool :=
  match p with
  | EmptyString => true
  | String b p' =>
      match s with
      | EmptyString => false
      | String a s' => Ascii.eqb a b && startsWith s' p'
      end
  end.

(** [s.includes(p)]. *)
Fixpoint includes (s p : string) : bool :=
  startsWith s p ||
  match s with
  | EmptyString => false
  | String _ s' => includes s' p
  end.

(** [s.slice(n)] for [0 <= n]. *)
Fixpoint sliceFrom (n : nat) (s : string) : string :=
  match n with
  | O => s
  | S n' =>
      match s with
      | EmptyString => EmptyString
      | String _ s' => sliceFrom n' s'
      end
  end.

(** [s.replace(pat, rep)] with a string pattern: the first occurrence of
    [pat] in [s], wherever it is, is replaced, and nothing else.  ([rep] is
    taken literally: the two replacement strings of the code hold no [$].) *)
Fixpoint replace (s pat rep : string) : string :=
  if startsWith s pat then rep +:+ sliceFrom (String.length pat) s
  else
    match s with
    | EmptyString => EmptyString
    | String c s' => String c (replace s' pat rep)
    end.

(** [s.split(sep)[0]] for a one-character separator. *)
Fixpoint splitHead (s : string) (sep : ascii) : string :=
  match s with
  | EmptyString => EmptyString
  | String c s' => if Ascii.eqb c sep then EmptyString else String c (splitHead s' sep)
  end.

(** What [s.toLowerCase()] gives on a string of ASCII characters: the
    letters [A]-[Z] are lowered, the other characters are kept.  The mocked
    world lowers with this function; the handler is embedded over the
    engine's own mapping, [toLowerCase] of [World]. *)
Definition lowerChar (c : ascii) : ascii :=
  let n := nat_of_ascii c in
  if (Nat.leb 65 n && Nat.leb n 90)%bool then ascii_of_nat (n + 32) else c.

Fixpoint toLowerCaseAscii (s : string) : string :=
  match s with
  | EmptyString => EmptyString
  | String c s' => String (lowerChar c) (toLowerCaseAscii s')
  end.

End JS.

(** ** Node's [path] module (POSIX) *)

Module Path.

Definition slash : ascii := "/"%char.
Definition dot : ascii := "."%char.

Definition charAt (s : string) (i : nat) : ascii :=
  match String.get i s with
  | Some c => c
  | None => Ascii.zero
  end.

(** [path.slice(a, b)]. *)
Definition slice (s : string) (a b : nat) : string := String.substring a (b - a) s.

(** The loop of [basename]: [n] is [i + 1], [end_ = None] is [end === -1];
    the result is [(start, end)]. *)
Fixpoint basenameLoop (path : string) (n : nat) (end_ : option nat) (matchedSlash : bool)
  : nat * option nat :=
  match n with
  | O => (O, end_)
  | S i =>
      if Ascii.eqb (charAt path i) slash then
        if negb matchedSlash then (S i, end_)
        else basenameLoop path i end_ matchedSlash
      else
        match end_ with
        | None => basenameLoop path i (Some (S i)) false
        | Some _ => basenameLoop path i end_ matchedSlash
        end
  end.

(** [path.basename(p)]. *)
Definition basename (path : string) : string :=
  match basenameLoop path (String.length path) None true with
  | (_, None) => ""
  | (start, Some e) => slice path start e
  end.

(** The loop variables of [extname]; [preDotState] is 0, 1 or -1. *)
Record ExtState := {
  startDot : option nat;
  startPart : nat;
  endIdx : option nat;
  matchedSlash : bool;
  preDotState : Z
}.

Fixpoint extnameLoop (path : string) (n : nat) (st : ExtState) : ExtState :=
  match n with
  | O => st
  | S i =>
      let code := charAt path i in
      if Ascii.eqb code slash then
        if negb (matchedSlash st) then
          {| startDot := startDot st; startPart := S i; endIdx := endIdx st;
             matchedSlash := matchedSlash st; preDotState := preDotState st |}
        else extnameLoop path i st
      else
        let st1 :=
          match endIdx st with
          | None =>
              {| startDot := startDot st; startPart := startPart st; endIdx := Some (S i);
                 matchedSlash := false; preDotState := preDotState st |}
          | Some _ => st
          end in
        let st2 :=
          if Ascii.eqb code dot then
            match startDot st1 with
            | None =>
                {| startDot := Some i; startPart := startPart st1; endIdx := endIdx st1;
                   matchedSlash := matchedSlash st1; preDotState := preDotState st1 |}
            | Some _ =>
                {| startDot := startDot st1; startPart := startPart st1; endIdx := endIdx st1;
                   matchedSlash := matchedSlash st1; preDotState := 1 |}
            end
          else
            match startDot st1 with
            | Some _ =>
                {| startDot := startDot st1; startPart := startPart st1; endIdx := endIdx st1;
                   matchedSlash := matchedSlash st1; preDotState := -1 |}
            | None => st1
            end in
        extnameLoop path i st2
  end.

(** [path.extname(p)]. *)
Definition extname (path : string) : string :=
  let st := extnameLoop path (String.length path)
              {| startDot := None; startPart := O; endIdx := None;
                 matchedSlash := true; preDotState := 0 |} in
  match startDot st, endIdx st with
  | Some sd, Some e =>
      if (preDotState st =? 0)
         || ((preDotState st =? 1) && Nat.eqb sd (e - 1) && Nat.eqb sd (startPart st + 1))
      then ""
      else slice path sd e
  | _, _ => ""
  end.

End Path.


(** ** Values exchanged with the outside

    A JSON field that is absent is the empty string or [0] where the code
    only tests the field for truthiness.  The [url] of the material
    endpoint's answer is an [option]: the code calls a method on it, which
    throws when the field is absent. *)

(** [UploadResponse] of [publish.ts]. *)
Record UploadResponse := {
  media_id : string;
  url : string
}.

(** The token endpoint's JSON body. *)
Record TokenData := {
  access_token : string;
  token_errcode : Z;
  token_errmsg : string
}.

(** The material endpoint's answer: the HTTP status and the JSON body. *)
Record UploadReply := {
  up_ok : bool;
  up_status : Z;
  up_text : string;
  up_errcode : Z;
  up_errmsg : string;
  up_media_id : string;
  up_url : option string             (* [None]: the body has no [url] *)
}.

(** What [fetch(imageUrl)] resolves to. *)
Record ImageReply := {
  img_ok : bool;
  img_hasBody : bool;
  img_bytes : string
}.

(** The draft endpoint's JSON body. *)
Record DraftData := {
  draft_media_id : string;
  draft_errcode : Z;
  draft_errmsg : string
}.

(** The errors of the two files, one constructor per [throw] site, and the
    rejections of the collaborators. *)
Inductive Error :=
| TokenRemoteError (code : Z) (msg : string)      (* publish.ts:41 *)
| TokenUnexpectedError                            (* publish.ts:44 *)
| UploadError (status : Z) (body : string)        (* publish.ts:59 *)
| UploadRemoteError (code : Z) (msg : string)     (* publish.ts:64 *)
| ImageFetchError (imageUrl : string)             (* publish.ts:78 *)
| MissingCoverError                               (* publish.ts:152 *)
| DraftRemoteError (code : Z) (msg : string)      (* publish.ts:170 *)
| DraftUnexpectedError                            (* publish.ts:173 *)
| InvalidThemeError                               (* index.ts:132 *)
| UnknownToolError                                (* index.ts:170 *)
| TypeError (what : string)                       (* thrown by the engine *)
| FetchRejected (why : string)                    (* fetch rejects *)
| FileError (why : string)                        (* fileFromPath, appendFileSync *)
| TransportError (why : string).                  (* the SDK transport throws *)

Inductive Result (A : Type) :=
| Ok (a : A)
| Throw (e : Error).
Arguments Ok {A} a.
Arguments Throw {A} e.

(** The requests the pipeline sends, in the order it sends them. *)
Inductive Request :=
| TokenRequest (appid secret : string)
| ImageDownload (imageUrl : string)
| FileRead (localPath : string)
| MaterialUpload (type fileData fileName accessToken : string)
| DraftAdd (accessToken title content thumb_media_id : string).

(** The document as [uploadImages] sees it: the [src] attribute of every
    [img] element in document order ([None] when the element has none), and
    the rest of the tree, which the function never touches. *)
Record Document := {
  images : list (option string);
  remainder : string
}.

(** [Theme] of [theme.ts]. *)
Record Theme := {
  theme_id : string;
  theme_name : string;
  theme_description : string
}.

(** What [handleFrontMatter] of [main.js] returns. *)
Record FrontMatter := {
  fm_body : string;
  fm_title : option string;
  fm_cover : option string
}.

(** ** The protocol side *)

Inductive Method := POST | GET | DELETE.

Record HttpRequest := {
  method : Method;
  sessionHeader : option string;     (* req.headers['mcp-session-id'] *)
  body : string;                     (* req.body *)
  bodyId : option Z                  (* req.body?.id *)
}.

Inductive HttpResponse :=
| JsonRpcError (status code : Z) (message : string) (data : option Error) (id : option Z)
| PlainText (status : Z) (text : string)
| Handled (written : string).        (* the transport wrote the response *)

(** A transport object: its identity and its [sessionId] property. *)
Record Transport := {
  t_ref : nat;
  t_sessionId : option string
}.

Record ServerInstance := {
  srv_name : string;
  srv_version : string
}.

(** What one [transport.handleRequest] does: the session id it passes to
    [onsessioninitialized] (if it calls it), whether it calls [onclose], and
    what it writes or throws. *)
Record SdkOutcome := {
  so_initialized : option string;
  so_closed : bool;
  so_result : Result string
}.

(** ** The world outside the two files *)

Record World := {
  (* process.env *)
  WECHAT_APP_ID : option string;
  WECHAT_APP_SECRET : option string;
  HOST_IMAGE_PATH : option string;
  (* the remote endpoints, as functions of the request *)
  tokenEndpoint : string -> string -> Result TokenData;
  imageEndpoint : string -> Result ImageReply;
  materialEndpoint : string -> string -> string -> string -> Result UploadReply;
  draftEndpoint : string -> string -> string -> string -> Result DraftData;
  (* the file system: reading an image, appending to the log file (given the
     lines already there; [Some e] is the error thrown) *)
  fileFromPath : string -> Result string;
  appendFileSync : list string -> string -> option string;
  (* jsdom *)
  JSDOM : string -> Document;
  serialize : Document -> string;
  (* theme.ts: the own entries of the registry object, in the order of
     Object.values and Object.entries *)
  themes : list (string * Theme);
  (* main.js; the theme id that [renderMarkdown] is given is [None] when it
     is [undefined] *)
  handleFrontMatter : string -> FrontMatter;
  renderMarkdown : string -> option string -> string;
  (* the engine: String.prototype.toLowerCase *)
  toLowerCase : string -> string;
  (* the protocol SDK *)
  isInitializeRequest : string -> bool;
  handleRequest : Transport -> HttpRequest -> SdkOutcome
}.

(** The same world with another behaviour of the log file. *)
Definition withLogFile (w : World) (fs : list string -> string -> option string) : World :=
  {| WECHAT_APP_ID := WECHAT_APP_ID w;
     WECHAT_APP_SECRET := WECHAT_APP_SECRET w;
     HOST_IMAGE_PATH := HOST_IMAGE_PATH w;
     tokenEndpoint := tokenEndpoint w;
     imageEndpoint := imageEndpoint w;
     materialEndpoint := materialEndpoint w;
     draftEndpoint := draftEndpoint w;
     fileFromPath := fileFromPath w;
     appendFileSync := fs;
     JSDOM := JSDOM w;
     serialize := serialize w;
     themes := themes w;
     handleFrontMatter := handleFrontMatter w;
     renderMarkdown := renderMarkdown w;
     toLowerCase := toLowerCase w;
     isInitializeRequest := isInitializeRequest w;
     handleRequest := handleRequest w |}.

(** The same world with another material endpoint. *)
Definition withMaterialEndpoint (w : World)
    (f : string -> string -> string -> string -> Result UploadReply) : World :=
  {| WECHAT_APP_ID := WECHAT_APP_ID w;
     WECHAT_APP_SECRET := WECHAT_APP_SECRET w;
     HOST_IMAGE_PATH := HOST_IMAGE_PATH w;
     tokenEndpoint := tokenEndpoint w;
     imageEndpoint := imageEndpoint w;
     materialEndpoint := f;
     draftEndpoint := draftEndpoint w;
     fileFromPath := fileFromPath w;
     appendFileSync := appendFileSync w;
     JSDOM := JSDOM w;
     serialize := serialize w;
     themes := themes w;
     handleFrontMatter := handleFrontMatter w;
     renderMarkdown := renderMarkdown w;
     toLowerCase := toLowerCase w;
     isInitializeRequest := isInitializeRequest w;
     handleRequest := handleRequest w |}.

(** The same world with another front-matter splitter. *)
Definition withFrontMatter (w : World) (h : string -> FrontMatter) : World :=
  {| WECHAT_APP_ID := WECHAT_APP_ID w;
     WECHAT_APP_SECRET := WECHAT_APP_SECRET w;
     HOST_IMAGE_PATH := HOST_IMAGE_PATH w;
     tokenEndpoint := tokenEndpoint w;
     imageEndpoint := imageEndpoint w;
     materialEndpoint := materialEndpoint w;
     draftEndpoint := draftEndpoint w;
     fileFromPath := fileFromPath w;
     appendFileSync := appendFileSync w;
     JSDOM := JSDOM w;
     serialize := serialize w;
     themes := themes w;
     handleFrontMatter := h;
     renderMarkdown := renderMarkdown w;
     toLowerCase := toLowerCase w;
     isInitializeRequest := isInitializeRequest w;
     handleRequest := handleRequest w |}.

(** ** The state of the process *)

Record State := {
  console : list string;                     (* what console.log printed *)
  logfile : list string;                     (* wenyan-mcp.log *)
  requests : list Request;                   (* sent so far *)
  transports : gmap string Transport;        (* index.ts:28 *)
  servers : gmap string ServerInstance;      (* index.ts:29 *)
  created : nat                              (* transports constructed so far *)
}.

Definition setConsole (c : list string) (s : State) : State :=
  {| console := c; logfile := logfile s; requests := requests s;
     transports := transports s; servers := servers s; created := created s |}.
Definition setLogfile (l : list string) (s : State) : State :=
  {| console := console s; logfile := l; requests := requests s;
     transports := transports s; servers := servers s; created := created s |}.
Definition setRequests (r : list Request) (s : State) : State :=
  {| console := console s; logfile := logfile s; requests := r;
     transports := transports s; servers := servers s; created := created s |}.
Definition setTransports (t : gmap string Transport) (s : State) : State :=
  {| console := console s; logfile := logfile s; requests := requests s;
     transports := t; servers := servers s; created := created s |}.
Definition setServers (v : gmap string ServerInstance) (s : State) : State :=
  {| console := console s; logfile := logfile s; requests := requests s;
     transports := transports s; servers := v; created := created s |}.
Definition setCreated (n : nat) (s : State) : State :=
  {| console := console s; logfile := logfile s; requests := requests s;
     transports := transports s; servers := servers s; created := n |}.

(** ** The monad of [async] code *)

Definition M (A : Type) : Type := World -> State -> Result A * State.

Definition ret {A} (a : A) : M A := fun _ s => (Ok a, s).

Definition throw {A} (e : Error) : M A := fun _ s => (Throw e, s).

Definition bind {A B} (m : M A) (f : A -> M B) : M B :=
  fun w s =>
    match m w s with
    | (Ok a, s') => f a w s'
    | (Throw e, s') => (Throw e, s')
    end.

(** [try { m } catch (e) { h e }]. *)
Definition tryCatch {A} (m : M A) (h : Error -> M A) : M A :=
  fun w s =>
    match m w s with
    | (Ok a, s') => (Ok a, s')
    | (Throw e, s') => h e w s'
    end.

Declare Scope monad_scope.
Delimit Scope monad_scope with monad.
Notation "x <- m ;; k" := (bind m (fun x => k))
  (at level 100, m at next level, right associativity) : monad_scope.
Notation "m ;; k" := (bind m (fun _ => k))
  (at level 100, right associativity) : monad_scope.
Open Scope monad_scope.

(** Reading the world: a value, or a call that may reject. *)
Definition reads {A} (f : World -> A) : M A := fun w s => (Ok (f w), s).
Definition call {A} (f : World -> Result A) : M A := fun w s => (f w, s).

(** Reading and writing the state. *)
Definition gets {A} (f : State -> A) : M A := fun _ s => (Ok (f s), s).
Definition modify (f : State -> State) : M unit := fun _ s => (Ok tt, f s).

(** The request goes out, and is recorded. *)
Definition send (r : Request) : M unit :=
  modify (fun s => setRequests (requests s ++ [r]) s).

Definition consoleLog (msg : string) : M unit :=
  modify (fun s => setConsole (console s ++ [msg]) s).

(** [fs.appendFileSync("wenyan-mcp.log", line)]. *)
Definition appendLog (line : string) : M unit :=
  fun w s =>
    match appendFileSync w (logfile s) line with
    | None => (Ok tt, setLogfile (logfile s ++ [line]) s)
    | Some e => (Throw (FileError e), s)
    end.

Fixpoint mapM {A B} (f : A -> M B) (l : list A) : M (list B) :=
  match l with
  | [] => ret []
  | a :: l' => b <- f a ;; bs <- mapM f l' ;; ret (b :: bs)
  end.

(** ** publish.ts *)

Module Publish.

Definition dockerImagePath : string := "/mnt/host-downloads".

(** [process.env.HOST_IMAGE_PATH || ""]. *)
Definition hostImagePath (w : World) : string := JS.orStr (HOST_IMAGE_PATH w) "".

(** The prefix of the platform's own media CDN (lines 109 and 143). *)
Definition cdnPrefix : string := "https://mmbiz.qpic.cn".

(** [log]: the message goes to the console, then to the log file inside a
    [try]; the handler prints to the console.  (A message stands for the
    formatted line: the time stamp and the inspected arguments are left
    out, no branch depends on them.) *)
Definition log (msg : string) : M unit :=
  consoleLog msg ;;
  tryCatch (appendLog msg)
           (fun _ => consoleLog "Failed to write to log file").

Definition fetchAccessToken (appid appsecret : option string) : M TokenData :=
  log "Fetching access token" ;;
  appIdToUse <- reads (fun w => JS.orStr (JS.or appid (WECHAT_APP_ID w)) "") ;;
  appSecretToUse <- reads (fun w => JS.orStr (JS.or appsecret (WECHAT_APP_SECRET w)) "") ;;
  send (TokenRequest appIdToUse appSecretToUse) ;;
  data <- call (fun w => tokenEndpoint w appIdToUse appSecretToUse) ;;
  if JS.truthy (access_token data) then
    log "Access token fetched" ;;
    ret data
  else if negb (token_errcode data =? 0) then
    log "Access token fetch error" ;;
    throw (TokenRemoteError (token_errcode data) (token_errmsg data))
  else
    log "Access token fetch unknown error" ;;
    throw TokenUnexpectedError.

Definition uploadMaterial (type fileData fileName accessToken : string) : M UploadResponse :=
  log "Uploading material" ;;
  send (MaterialUpload type fileData fileName accessToken) ;;
  response <- call (fun w => materialEndpoint w type fileData fileName accessToken) ;;
  if negb (up_ok response) then
    log "Upload failed" ;;
    throw (UploadError (up_status response) (up_text response))
  else if negb (up_errcode response =? 0) then
    log "Upload error" ;;
    throw (UploadRemoteError (up_errcode response) (up_errmsg response))
  else
    match up_url response with
    | None => throw (TypeError "Cannot read properties of undefined (reading 'replace')")
    | Some dataUrl =>
        let result := JS.replace dataUrl "http://" "https://" in
        log "Upload success" ;;
        ret {| media_id := up_media_id response; url := result |}
    end.

(** The name under which an image is uploaded (lines 80-82 and 87-89). *)
Definition imageName (fileName : option string) (path : string) : string :=
  let fileNameFromPath := Path.basename path in
  let ext := Path.extname fileNameFromPath in
  JS.nullish fileName
    (if String.eqb ext "" then fileNameFromPath +:+ ".jpg" else fileNameFromPath).

(** The path that is read for a local reference (line 86). *)
Definition localImagePath (w : World) (imageUrl : string) : string :=
  if JS.truthy (hostImagePath w)
  then JS.replace imageUrl (hostImagePath w) dockerImagePath
  else imageUrl.

Definition uploadImage (imageUrl accessToken : string) (fileName : option string)
  : M UploadResponse :=
  log "Uploading image" ;;
  if JS.startsWith imageUrl "http" then
    send (ImageDownload imageUrl) ;;
    response <- call (fun w => imageEndpoint w imageUrl) ;;
    if negb (img_ok response) || negb (img_hasBody response) then
      log "Failed to download image from URL" ;;
      throw (ImageFetchError imageUrl)
    else
      uploadMaterial "image" (img_bytes response)
        (imageName fileName (JS.splitHead imageUrl "?"%char)) accessToken
  else
    path <- reads (fun w => localImagePath w imageUrl) ;;
    send (FileRead path) ;;
    file <- call (fun w => fileFromPath w path) ;;
    uploadMaterial "image" file (imageName fileName path) accessToken.

Record Relocated := {
  html : string;
  firstImageId : string
}.

(** The callback of [images.map] (lines 106-118) on an element whose [src]
    attribute is [dataSrc]: the attribute after the callback, and the value
    its promise resolves to ([None] is [null]). *)
Definition uploadPromise (accessToken : string) (dataSrc : option string)
  : M (option string * option string) :=
  match dataSrc with
  | Some src =>
      if JS.truthy src then
        if negb (JS.startsWith src cdnPrefix) then
          resp <- uploadImage src accessToken None ;;
          ret (Some (url resp), Some (media_id resp))
        else ret (dataSrc, Some src)
      else ret (dataSrc, None)
  | None => ret (None, None)
  end.

(** [uploadImages].  The code starts the callbacks of [images.map] all at
    once and waits for them with [Promise.all]; here they run one after the
    other, in document order, and the first failure ends the run.  The
    endpoints answer by the request alone, so when every callback succeeds
    the ids and URLs are those of any interleaving.  What is this order's
    and not the code's: the order in which the requests of different images
    go out; which error wins when several uploads fail (in the code, the
    first in time); and that no request follows a failure (in the code the
    other uploads still go out).  No property below depends on these. *)
Definition uploadImages (content accessToken : string) : M Relocated :=
  log "Uploading images in content" ;;
  if negb (JS.includes content "<img") then
    log "No images found in content" ;;
    ret {| html := content; firstImageId := "" |}
  else
    dom <- reads (fun w => JSDOM w content) ;;
    settled <- mapM (uploadPromise accessToken) (images dom) ;;
    let mediaIds := JS.filterBoolean (map snd settled) in
    let firstImageId := JS.orStr (head mediaIds) "" in
    updatedHtml <- reads (fun w =>
      serialize w {| images := map fst settled; remainder := remainder dom |}) ;;
    log "Images uploaded" ;;
    ret {| html := updatedHtml; firstImageId := firstImageId |}.

(** Lines 138-149 of [publishToDraft]: the cover's media id. *)
Definition resolveCover (cover firstImageId accessToken : string) : M string :=
  if JS.truthy cover then
    resp <- uploadImage cover accessToken (Some "cover.jpg") ;;
    ret (media_id resp)
  else if JS.startsWith firstImageId cdnPrefix then
    resp <- uploadImage firstImageId accessToken (Some "cover.jpg") ;;
    ret (media_id resp)
  else ret firstImageId.

Definition publishToDraft (title content cover : string) (appid appsecret : option string)
  : M DraftData :=
  log "Publishing to draft" ;;
  accessToken <- fetchAccessToken appid appsecret ;;
  relocated <- uploadImages content (access_token accessToken) ;;
  thumbMediaId <- resolveCover cover (firstImageId relocated) (access_token accessToken) ;;
  if negb (JS.truthy thumbMediaId) then
    log "No cover image found" ;;
    throw MissingCoverError
  else
    send (DraftAdd (access_token accessToken) title (html relocated) thumbMediaId) ;;
    data <- call (fun w => draftEndpoint w (access_token accessToken) title (html relocated)
                             thumbMediaId) ;;
    if JS.truthy (draft_media_id data) then
      log "Draft published" ;;
      ret data
    else if negb (draft_errcode data =? 0) then
      log "Draft publish error" ;;
      throw (DraftRemoteError (draft_errcode data) (draft_errmsg data))
    else
      log "Draft publish unknown error" ;;
      throw DraftUnexpectedError.

End Publish.

(** ** index.ts *)

Module Index.

(** [log]: as in [publish.ts], with an empty [catch]. *)
Definition log (msg : string) : M unit :=
  consoleLog msg ;;
  tryCatch (appendLog msg) (fun _ => ret tt).

(** *** The tool handlers *)

(** [request.params] of a tool call. *)
Record ToolRequest := {
  tool_name : string;
  arg_content : option string;
  arg_theme_id : option string;
  arg_appid : option string;
  arg_appsecret : option string
}.

Inductive Content :=
| TextContent (text : string)
| ThemeContent (id name description : string).   (* JSON.stringify({id, name, description}) *)

(** *** Reading a property of an object literal

    The theme registry and the two session maps are plain objects: reading
    [object[key]] finds the entry stored under [key], or else what every
    object inherits under that name, or else [undefined]. *)
Definition objectPrototypeKeys : list string :=
  [ "constructor"; "__proto__"; "hasOwnProperty"; "isPrototypeOf";
    "propertyIsEnumerable"; "toLocaleString"; "toString"; "valueOf";
    "__defineGetter__"; "__defineSetter__"; "__lookupGetter__"; "__lookupSetter__" ].

Inductive Property (A : Type) :=
| Own (a : A)
| Inherited
| Undefined.
Arguments Own {A} a.
Arguments Inherited {A}.
Arguments Undefined {A}.

(** What is read when no entry is stored under [key]. *)
Definition inheritedProperty {A} (key : string) : Property A :=
  if existsb (String.eqb key) objectPrototypeKeys then Inherited else Undefined.

(** Objects and functions are truthy. *)
Definition isTruthy {A} (p : Property A) : bool :=
  match p with
  | Undefined => false
  | _ => true
  end.

(** The entry stored under [key] in the registry. *)
Definition lookupTheme (registry : list (string * Theme)) (key : string) : option Theme :=
  match List.find (fun entry => String.eqb (fst entry) key) registry with
  | Some entry => Some (snd entry)
  | None => None
  end.

(** [themes[key]]. *)
Definition themeProperty (registry : list (string * Theme)) (key : string) : Property Theme :=
  match lookupTheme registry key with
  | Some theme => Own theme
  | None => inheritedProperty key
  end.

(** [Object.values(themes).find(theme => theme.name.toLowerCase() ===
    themeId.toLowerCase())]. *)
Definition findByName (w : World) (themeId : string) : option Theme :=
  List.find
    (fun theme => String.eqb (toLowerCase w (theme_name theme)) (toLowerCase w themeId))
    (map snd (themes w)).

(** Lines 121-129: the value of [theme] when it is tested at line 130. *)
Definition selectTheme (w : World) (themeId : string) : Property Theme :=
  if JS.truthy themeId then
    let theme := themeProperty (themes w) themeId in
    if negb (isTruthy theme) then
      match findByName w themeId with
      | Some found => Own found
      | None => Undefined
      end
    else theme
  else themeProperty (themes w) "default".

(** [theme.id]: what every object inherits has no property [id]. *)
Definition idOf (theme : Property Theme) : option string :=
  match theme with
  | Own t => Some (theme_id t)
  | _ => None
  end.

Definition publishedText (media_id : string) : string :=
  "Your article was successfully published to '公众号草稿箱'. The media ID is "
    +:+ media_id +:+ ".".

(** Lines 140-154: the [try] around [publishToDraft]. *)
Definition publishAndReport (title html cover : string) (appid appsecret : option string)
  : M (list Content) :=
  tryCatch
    (response <- Publish.publishToDraft title html cover appid appsecret ;;
     log "Article published" ;;
     ret [TextContent (publishedText (draft_media_id response))])
    (fun err =>
       log "Publish error" ;;
       throw err).

(** The [CallToolRequestSchema] handler. *)
Definition callTool (request : ToolRequest) : M (list Content) :=
  log "CallToolRequestSchema called" ;;
  if String.eqb (tool_name request) "publish_article" then
    let content := JS.orStr (arg_content request) "" in
    let themeId := JS.orStr (arg_theme_id request) "" in
    let appid := arg_appid request in
    let appsecret := arg_appsecret request in
    theme <- reads (fun w => selectTheme w themeId) ;;
    if negb (isTruthy theme) then
      log "Invalid theme ID" ;;
      throw InvalidThemeError
    else
      preHandlerContent <- reads (fun w => handleFrontMatter w content) ;;
      log "FrontMatter handled" ;;
      html <- reads (fun w => renderMarkdown w (fm_body preHandlerContent) (idOf theme)) ;;
      log "Markdown rendered" ;;
      let title := JS.nullish (fm_title preHandlerContent) "this is title" in
      let cover := JS.nullish (fm_cover preHandlerContent) "" in
      publishAndReport title html cover appid appsecret
  else if String.eqb (tool_name request) "list_themes" then
    log "Listing themes" ;;
    registry <- reads themes ;;
    ret (map (fun entry =>
                ThemeContent (fst entry) (theme_name (snd entry))
                  (theme_description (snd entry)))
             registry)
  else
    log "Unknown tool" ;;
    throw UnknownToolError.

(** *** The session maps *)

(** [map[key]] on one of the two session maps. *)
Definition getProperty {A} (m : gmap string A) (key : string) : Property A :=
  match m !! key with
  | Some a => Own a
  | None => if existsb (String.eqb key) objectPrototypeKeys then Inherited else Undefined
  end.

Definition newServer : ServerInstance :=
  {| srv_name := "wenyan-mcp"; srv_version := "0.1.0" |}.

(** Lines 48-52. *)
Definition onsessioninitialized (transport : Transport) (server : ServerInstance) (sid : string)
  : M unit :=
  log "Session initialized" ;;
  modify (fun s => setTransports (<[sid := transport]> (transports s)) s) ;;
  modify (fun s => setServers (<[sid := server]> (servers s)) s).

(** Lines 176-182. *)
Definition onclose (transport : Transport) : M unit :=
  log "Session closed" ;;
  if JS.truthyOpt (t_sessionId transport) then
    let sid := JS.orStr (t_sessionId transport) "" in
    modify (fun s => setTransports (delete sid (transports s)) s) ;;
    modify (fun s => setServers (delete sid (servers s)) s)
  else ret tt.

(** [transport.handleRequest(req, res, ...)] on a transport object: the SDK
    decides the outcome and calls the two callbacks given to it. *)
Definition transportHandleRequest (transport : Transport) (server : option ServerInstance)
    (req : HttpRequest) : M string :=
  outcome <- reads (fun w => handleRequest w transport req) ;;
  let transport' :=
    match so_initialized outcome with
    | Some sid => {| t_ref := t_ref transport; t_sessionId := Some sid |}
    | None => transport
    end in
  match so_initialized outcome, server with
  | Some sid, Some srv => onsessioninitialized transport' srv sid
  | _, _ => ret tt
  end ;;
  (if so_closed outcome then onclose transport' else ret tt) ;;
  call (fun _ => so_result outcome).

(** [transport.handleRequest(...)] on whatever the map lookup gave. *)
Definition callHandleRequest (transport : Property Transport) (server : option ServerInstance)
    (req : HttpRequest) : M string :=
  match transport with
  | Own t => transportHandleRequest t server req
  | _ => throw (TypeError "transport.handleRequest is not a function")
  end.

(** Lines 196-210. *)
Definition handlePost (transport : Property Transport) (server : option ServerInstance)
    (req : HttpRequest) : M HttpResponse :=
  tryCatch
    (written <- callHandleRequest transport server req ;;
     log "Request handled successfully" ;;
     ret (Handled written))
    (fun err =>
       log "Request handling error" ;;
       ret (JsonRpcError 500 (-32001) "Internal server error" (Some err) (bodyId req))).

(** [app.post('/mcp', ...)]. *)
Definition post (req : HttpRequest) : M HttpResponse :=
  log "POST /mcp" ;;
  let sessionId := sessionHeader req in
  let sid := JS.orStr sessionId "" in
  found <- gets (fun s => getProperty (transports s) sid) ;;
  if JS.truthyOpt sessionId && isTruthy found then
    log "Reusing session" ;;
    server <- gets (fun s => servers s !! sid) ;;
    handlePost found server req
  else
    isInit <- reads (fun w => isInitializeRequest w (body req)) ;;
    if negb (JS.truthyOpt sessionId) && isInit then
      log "Initializing new session" ;;
      ref <- gets created ;;
      let transport := {| t_ref := ref; t_sessionId := None |} in
      modify (fun s => setCreated (S (created s)) s) ;;
      log "Server instance created" ;;
      log "Server connected to transport" ;;
      handlePost (Own transport) (Some newServer) req
    else
      log "Bad Request: No valid session ID provided" ;;
      ret (JsonRpcError 400 (-32000) "Bad Request: No valid session ID provided" None None).

(** [handleSessionRequest], for GET and DELETE. *)
Definition handleSessionRequest (req : HttpRequest) : M HttpResponse :=
  log "GET/DELETE /mcp" ;;
  let sessionId := sessionHeader req in
  let sid := JS.orStr sessionId "" in
  found <- gets (fun s => getProperty (transports s) sid) ;;
  if negb (JS.truthyOpt sessionId) || negb (isTruthy found) then
    log "Invalid or missing session ID" ;;
    ret (PlainText 400 "Invalid or missing session ID")
  else
    server <- gets (fun s => servers s !! sid) ;;
    tryCatch
      (written <- callHandleRequest found server req ;;
       log "Session request handled successfully" ;;
       ret (Handled written))
      (fun _ =>
         log "Session request handling error" ;;
         ret (PlainText 500 "Internal server error")).

(** The routes of the application (lines 34, 231 and 232). *)
Definition route (req : HttpRequest) : M HttpResponse :=
  match method req with
  | POST => post req
  | GET => handleSessionRequest req
  | DELETE => handleSessionRequest req
  end.

End Index.

(** ** Predicates on runs *)

(** The result of a run, and the requests it sent. *)
Definition result {A} (m : M A) (w : World) (s : State) : Result A := fst (m w s).
Definition final {A} (m : M A) (w : World) (s : State) : State := snd (m w s).

(** Two states that differ at most in the console and the log file. *)
Definition obs_eq (s1 s2 : State) : Prop :=
  requests s1 = requests s2 /\ transports s1 = transports s2 /\
  servers s1 = servers s2 /\ created s1 = created s2.

(** Any two states. *)
Definition anyStates (s1 s2 : State) : Prop := True.

(** A relation on states that logging and sending keep. *)
Class LogBlind (R : State -> State -> Prop) : Prop := {
  blind_console_l : forall c s1 s2, R s1 s2 -> R (setConsole c s1) s2;
  blind_console_r : forall c s1 s2, R s1 s2 -> R s1 (setConsole c s2);
  blind_logfile_l : forall l s1 s2, R s1 s2 -> R (setLogfile l s1) s2;
  blind_logfile_r : forall l s1 s2, R s1 s2 -> R s1 (setLogfile l s2);
  blind_requests : forall r s1 s2, R s1 s2 ->
    R (setRequests (requests s1 ++ [r]) s1) (setRequests (requests s2 ++ [r]) s2)
}.

(** [m] gives the same result, and related final states, from related
    states, whatever the log file does in either run. *)
Definition blind (R : State -> State -> Prop) {A} (m : M A) : Prop :=
  forall w fs1 fs2 s1 s2, R s1 s2 ->
    result m (withLogFile w fs1) s1 = result m (withLogFile w fs2) s2 /\
    R (final m (withLogFile w fs1) s1) (final m (withLogFile w fs2) s2).

(** [m] sends only requests that satisfy [P], and touches no session. *)
Definition sends (P : Request -> Prop) {A} (m : M A) : Prop :=
  forall w s, exists sent,
    requests (final m w s) = requests s ++ sent /\ Forall P sent /\
    transports (final m w s) = transports s /\ servers (final m w s) = servers s /\
    created (final m w s) = created s.

(** [m] does not look at the front-matter splitter. *)
Definition fmFree {A} (m : M A) : Prop :=
  forall w h s, m (withFrontMatter w h) s = m w s.

(** The same result, and final states that differ at most in the console
    and the log file, under two behaviours of the log file. *)
Definition sameOutcome {A} (m : M A) (w : World)
    (fs1 fs2 : list string -> string -> option string) (s : State) : Prop :=
  result m (withLogFile w fs1) s = result m (withLogFile w fs2) s /\
  obs_eq (final m (withLogFile w fs1) s) (final m (withLogFile w fs2) s).

(** The front matter [fm] with the title [t]. *)
Definition withTitle (t : string) (fm : FrontMatter) : FrontMatter :=
  {| fm_body := fm_body fm; fm_title := Some t; fm_cover := fm_cover fm |}.

Definition isDraftAdd (r : Request) : bool :=
  match r with
  | DraftAdd _ _ _ _ => true
  | _ => false
  end.

(** The draft-creation requests among [l]. *)
Definition draftsOf (l : list Request) : list Request := List.filter isDraftAdd l.

(** A request that is not a draft-creation request. *)
Definition notDraft (r : Request) : Prop := isDraftAdd r = false.

(** A request of the draft endpoint carries the title [t]. *)
Definition titled (t : string) (r : Request) : Prop :=
  match r with
  | DraftAdd _ title _ _ => title = t
  | _ => True
  end.

(** The outcome [out] of the callback of [images.map] on an element whose
    [src] attribute is [src]: the attribute afterwards, and the id the
    promise resolves to. *)
Definition relocatedAs (w : World) (s : State) (accessToken : string)
    (src : option string) (out : option string * option string) : Prop :=
  match src with
  | Some u =>
      if JS.truthy u then
        if JS.startsWith u Publish.cdnPrefix then out = (Some u, Some u)
        else exists resp,
               result (Publish.uploadImage u accessToken None) w s = Ok resp /\
               out = (Some (url resp), Some (media_id resp))
      else out = (Some u, None)
  | None => out = (None, None)
  end.

(** ** A mocked world, for the examples *)

Module Sample.

Definition dq : string := String (ascii_of_nat 34) EmptyString.

Definition imgTag (src : option string) : string :=
  match src with
  | Some s => "<img src=" +:+ dq +:+ s +:+ dq +:+ ">"
  | None => "<img>"
  end.

(** jsdom on the inputs of the examples: a fragment becomes the body of a
    full document. *)
Definition parse (content : string) : Document :=
  if String.eqb content "<img src=''><img src='a.png'>" then
    {| images := [Some ""; Some "a.png"]; remainder := "" |}
  else if String.eqb content "<img src='https://example.com/a.png'>" then
    {| images := [Some "https://example.com/a.png"]; remainder := "" |}
  else if String.eqb content "<img src='https://mmbiz.qpic.cn/x/0'>" then
    {| images := [Some "https://mmbiz.qpic.cn/x/0"]; remainder := "" |}
  else if String.eqb content "<imgx>" then
    {| images := []; remainder := "<imgx></imgx>" |}
  else {| images := []; remainder := content |}.

Definition print (d : Document) : string :=
  "<html><head></head><body>" +:+ remainder d +:+ String.concat "" (map imgTag (images d))
    +:+ "</body></html>".

Definition defaultTheme : Theme :=
  {| theme_id := "default"; theme_name := "Default"; theme_description := "the default theme" |}.
Definition orangeheart : Theme :=
  {| theme_id := "orangeheart"; theme_name := "OrangeHeart"; theme_description := "orange" |}.

Definition world : World :=
  {| WECHAT_APP_ID := None;
     WECHAT_APP_SECRET := None;
     HOST_IMAGE_PATH := Some "/Users/me/Downloads";
     tokenEndpoint := fun _ _ =>
       Ok {| access_token := "TOKEN"; token_errcode := 0; token_errmsg := "" |};
     imageEndpoint := fun u =>
       Ok {| img_ok := true; img_hasBody := true; img_bytes := "bytes" |};
     materialEndpoint := fun _ _ fileName _ =>
       Ok {| up_ok := true; up_status := 200; up_text := ""; up_errcode := 0; up_errmsg := "";
             up_media_id := "media-" +:+ fileName;
             up_url := Some ("http://mmbiz.qpic.cn/" +:+ fileName) |};
     draftEndpoint := fun _ _ _ _ =>
       Ok {| draft_media_id := "draft-1"; draft_errcode := 0; draft_errmsg := "" |};
     fileFromPath := fun p => if String.eqb p "" then Throw (FileError "ENOENT") else Ok "file";
     appendFileSync := fun _ _ => None;
     JSDOM := parse;
     serialize := print;
     themes := [("default", defaultTheme); ("orangeheart", orangeheart)];
     handleFrontMatter := fun content =>
       {| fm_body := content; fm_title := None; fm_cover := None |};
     renderMarkdown := fun body _ => body;
     toLowerCase := JS.toLowerCaseAscii;
     isInitializeRequest := fun b => String.eqb b "initialize";
     handleRequest := fun _ req =>
       {| so_initialized := if String.eqb (body req) "initialize" then Some "uuid-1" else None;
          so_closed := match method req with DELETE => true | _ => false end;
          so_result := Ok "done" |} |}.

(** The material endpoint answers with the URL [u]. *)
Definition answering (u : string) : World :=
  withMaterialEndpoint world (fun _ _ fileName _ =>
    Ok {| up_ok := true; up_status := 200; up_text := ""; up_errcode := 0; up_errmsg := "";
          up_media_id := "media-" +:+ fileName; up_url := Some u |}).

(** The log file cannot be written. *)
Definition readOnly : list string -> string -> option string := fun _ _ => Some "EACCES".

Definition start : State :=
  {| console := []; logfile := []; requests := [];
     transports := ∅; servers := ∅; created := O |}.

Definition request (m : Method) (sid : option string) (b : string) : HttpRequest :=
  {| method := m; sessionHeader := sid; body := b; bodyId := Some 1 |}.

(** A [publish_article] call on scenario A of the specification. *)
Definition publish (theme : option string) : Index.ToolRequest :=
  {| Index.tool_name := "publish_article";
     Index.arg_content := Some "<img src='https://example.com/a.png'>";
     Index.arg_theme_id := theme;
     Index.arg_appid := None;
     Index.arg_appsecret := None |}.

End Sample.

(** ** Further predicates *)

(** An [img] element that [uploadImages] does not upload: it has no [src],
    an empty one, or one on the CDN. *)
Definition hosted (src : option string) : bool :=
  match src with
  | Some u => negb (JS.truthy u) || JS.startsWith u Publish.cdnPrefix
  | None => true
  end.

(** A draft request, if [r] is one, has the title [t] and a cover id. *)
Definition covered (t : string) (r : Request) : Prop :=
  match r with
  | DraftAdd _ title _ thumb_media_id => title = t /\ JS.truthy thumb_media_id = true
  | _ => True
  end.

(** The log file can always be written. *)
Definition writable (w : World) : Prop :=
  forall lines line, appendFileSync w lines line = None.

(** With a log file that can be written, [m] prints to the console the
    lines it writes to the log file, and no others. *)
Definition mirrored {A} (m : M A) : Prop :=
  forall w s, writable w ->
    exists lines,
      console (final m w s) = console s ++ lines /\
      logfile (final m w s) = logfile s ++ lines.







(** The answer of [app.post] once the request has reached a transport. *)
Definition postAnswer (req : HttpRequest) (outcome : Result string) : HttpResponse :=
  match outcome with
  | Ok written => Handled written
  | Throw err => JsonRpcError 500 (-32001) "Internal server error" (Some err) (bodyId req)
  end.

(** The same world with another token endpoint. *)
Definition withTokenEndpoint (w : World) (f : string -> string -> Result TokenData) : World :=
  {| WECHAT_APP_ID := WECHAT_APP_ID w;
     WECHAT_APP_SECRET := WECHAT_APP_SECRET w;
     HOST_IMAGE_PATH := HOST_IMAGE_PATH w;
     tokenEndpoint := f;
     imageEndpoint := imageEndpoint w;
     materialEndpoint := materialEndpoint w;
     draftEndpoint := draftEndpoint w;
     fileFromPath := fileFromPath w;
     appendFileSync := appendFileSync w;
     JSDOM := JSDOM w;
     serialize := serialize w;
     themes := themes w;
     handleFrontMatter := handleFrontMatter w;
     renderMarkdown := renderMarkdown w;
     toLowerCase := toLowerCase w;
     isInitializeRequest := isInitializeRequest w;
     handleRequest := handleRequest w |}.

(** The [ListToolsRequestSchema] handler (index.ts 69-112): the declared
    tools, each with the arguments it declares and those it requires. *)
Module Tools.



End Tools.

(** More of the mocked world. *)
Module Mock.

(** The token endpoint refuses the credentials. *)
Definition denied : World :=
  withTokenEndpoint Sample.world (fun _ _ =>
    Ok {| access_token := ""; token_errcode := 40013; token_errmsg := "invalid appid" |}).

(** The material endpoint answers without [url]. *)
Definition silent : World :=
  withMaterialEndpoint Sample.world (fun _ _ fileName _ =>
    Ok {| up_ok := true; up_status := 200; up_text := ""; up_errcode := 0; up_errmsg := "";
          up_media_id := "media-" +:+ fileName; up_url := None |}).

(** The state after the first session of the mocked world was opened. *)
Definition opened : State :=
  final (Index.route (Sample.request POST None "initialize")) Sample.world Sample.start.


End Mock.

(** * Properties *)

(** ** The built-ins on examples *)

Example basename_of_path : Path.basename "/Users/me/Downloads/a.png" = "a.png".
Proof. reflexivity. Qed.

Example basename_trailing_slashes : Path.basename "/a/b//" = "b".
Proof. reflexivity. Qed.

Example basename_of_root : Path.basename "/" = "".
Proof. reflexivity. Qed.

Example extname_last_dot : Path.extname "index.coffee.md" = ".md".
Proof. reflexivity. Qed.

Example extname_leading_dot : Path.extname ".index" = "".
Proof. reflexivity. Qed.

Example extname_trailing_dot : Path.extname "index." = ".".
Proof. reflexivity. Qed.

Example extname_dot_dot : Path.extname ".." = "".
Proof. reflexivity. Qed.

Example extname_two_dots_then_name : Path.extname "..a" = ".a".
Proof. reflexivity. Qed.

Example extname_none : Path.extname "picture" = "".
Proof. reflexivity. Qed.

Example replace_first_occurrence :
  JS.replace "a-b-c" "-" "+" = "a+b-c".
Proof. reflexivity. Qed.

Example replace_empty_pattern : JS.replace "abc" "" "x" = "xabc".
Proof. reflexivity. Qed.

Example splitHead_query : JS.splitHead "https://e.com/a.png?x=1" "?"%char = "https://e.com/a.png".
Proof. reflexivity. Qed.

Example toLowerCaseAscii_letters : JS.toLowerCaseAscii "Orange Heart" = "orange heart".
Proof. reflexivity. Qed.

Example filterBoolean_drops : JS.filterBoolean [None; Some ""; Some "m1"; Some "m2"] = ["m1"; "m2"].
Proof. reflexivity. Qed.



(** ** Runs of the monad *)

#[global] Instance anyStates_blind : LogBlind anyStates.
Proof. split; intros; exact I. Qed.

#[global] Instance obs_eq_blind : LogBlind obs_eq.
Proof.
  split; unfold obs_eq; simpl; intros; intuition (try congruence).
Qed.

Lemma obs_eq_refl s : obs_eq s s.
Proof. unfold obs_eq. auto. Qed.

Section Blind.

Context (R : State -> State -> Prop) {HR : LogBlind R}.

Lemma blind_ret {A} (a : A) : blind R (ret a).
Proof. intros w fs1 fs2 s1 s2 H. split; [reflexivity | exact H]. Qed.

Lemma blind_throw {A} (e : Error) : blind R (@throw A e).
Proof. intros w fs1 fs2 s1 s2 H. split; [reflexivity | exact H]. Qed.

Lemma blind_bind {A B} (m : M A) (f : A -> M B) :
  blind R m -> (forall a, blind R (f a)) -> blind R (bind m f).
Proof.
  intros Hm Hf w fs1 fs2 s1 s2 H.
  destruct (Hm w fs1 fs2 s1 s2 H) as [Hres Hfin].
  unfold result, final, bind in *.
  destruct (m (withLogFile w fs1) s1) as [[a1 | e1] t1];
    destruct (m (withLogFile w fs2) s2) as [[a2 | e2] t2];
    simpl in *; try discriminate.
  - injection Hres as ->. apply (Hf a2 w fs1 fs2 t1 t2 Hfin).
  - injection Hres as ->. split; [reflexivity | exact Hfin].
Qed.

Lemma blind_tryCatch {A} (m : M A) (h : Error -> M A) :
  blind R m -> (forall e, blind R (h e)) -> blind R (tryCatch m h).
Proof.
  intros Hm Hh w fs1 fs2 s1 s2 H.
  destruct (Hm w fs1 fs2 s1 s2 H) as [Hres Hfin].
  unfold result, final, tryCatch in *.
  destruct (m (withLogFile w fs1) s1) as [[a1 | e1] t1];
    destruct (m (withLogFile w fs2) s2) as [[a2 | e2] t2];
    simpl in *; try discriminate.
  - injection Hres as ->. split; [reflexivity | exact Hfin].
  - injection Hres as ->. apply (Hh e2 w fs1 fs2 t1 t2 Hfin).
Qed.

Lemma blind_reads {A} (f : World -> A) :
  (forall w fs, f (withLogFile w fs) = f w) -> blind R (reads f).
Proof.
  intros Hf w fs1 fs2 s1 s2 H. unfold result, final, reads. simpl.
  rewrite !Hf. split; [reflexivity | exact H].
Qed.

Lemma blind_call {A} (f : World -> Result A) :
  (forall w fs, f (withLogFile w fs) = f w) -> blind R (call f).
Proof.
  intros Hf w fs1 fs2 s1 s2 H. unfold result, final, call. simpl.
  rewrite !Hf. split; [reflexivity | exact H].
Qed.

Lemma blind_send (r : Request) : blind R (send r).
Proof.
  intros w fs1 fs2 s1 s2 H. unfold result, final, send, modify. simpl.
  split; [reflexivity | now apply blind_requests].
Qed.

Ltac blind_setters H :=
  repeat first [ apply blind_console_l | apply blind_console_r
               | apply blind_logfile_l | apply blind_logfile_r ];
  exact H.

(** The heart of it: the append may fail in one run and not in the other. *)
Lemma blind_publish_log (msg : string) : blind R (Publish.log msg).
Proof.
  intros w fs1 fs2 s1 s2 H.
  unfold result, final, Publish.log, bind, tryCatch, consoleLog, modify, appendLog.
  cbn [appendFileSync withLogFile].
  destruct (fs1 _ _), (fs2 _ _); cbn [fst snd]; (split; [reflexivity | blind_setters H]).
Qed.

Lemma blind_index_log (msg : string) : blind R (Index.log msg).
Proof.
  intros w fs1 fs2 s1 s2 H.
  unfold result, final, Index.log, bind, tryCatch, consoleLog, modify, appendLog, ret.
  cbn [appendFileSync withLogFile].
  destruct (fs1 _ _), (fs2 _ _); cbn [fst snd]; (split; [reflexivity | blind_setters H]).
Qed.

Lemma blind_mapM {A B} (f : A -> M B) (l : list A) :
  (forall a, blind R (f a)) -> blind R (mapM f l).
Proof.
  intros Hf. induction l as [| a l IH]; simpl.
  - apply blind_ret.
  - apply blind_bind; [apply Hf | intros b].
    apply blind_bind; [apply IH | intros bs]. apply blind_ret.
Qed.

End Blind.

(** ** What a run sends *)

Section Sends.

Context (P : Request -> Prop).

Lemma sends_ret {A} (a : A) : sends P (ret a).
Proof. intros w s. exists []. unfold final, ret. simpl. rewrite app_nil_r. auto. Qed.

Lemma sends_throw {A} (e : Error) : sends P (@throw A e).
Proof. intros w s. exists []. unfold final, throw. simpl. rewrite app_nil_r. auto. Qed.

Lemma sends_reads {A} (f : World -> A) : sends P (reads f).
Proof. intros w s. exists []. unfold final, reads. simpl. rewrite app_nil_r. auto. Qed.

Lemma sends_call {A} (f : World -> Result A) : sends P (call f).
Proof. intros w s. exists []. unfold final, call. simpl. rewrite app_nil_r. auto. Qed.

Lemma sends_send (r : Request) : P r -> sends P (send r).
Proof.
  intros Hr w s. exists [r]. unfold final, send, modify. simpl. auto.
Qed.

Lemma sends_bind {A B} (m : M A) (f : A -> M B) :
  sends P m -> (forall a, sends P (f a)) -> sends P (bind m f).
Proof.
  intros Hm Hf w s.
  destruct (Hm w s) as (sent1 & E1 & F1 & T1 & V1 & C1).
  unfold final, bind in *.
  destruct (m w s) as [[a | e] s1]; simpl in *.
  - destruct (Hf a w s1) as (sent2 & E2 & F2 & T2 & V2 & C2). unfold final in *.
    exists (sent1 ++ sent2). rewrite E2, E1, app_assoc.
    repeat split; try congruence. now apply Forall_app.
  - exists sent1. auto.
Qed.

Lemma sends_tryCatch {A} (m : M A) (h : Error -> M A) :
  sends P m -> (forall e, sends P (h e)) -> sends P (tryCatch m h).
Proof.
  intros Hm Hh w s.
  destruct (Hm w s) as (sent1 & E1 & F1 & T1 & V1 & C1).
  unfold final, tryCatch in *.
  destruct (m w s) as [[a | e] s1]; simpl in *.
  - exists sent1. auto.
  - destruct (Hh e w s1) as (sent2 & E2 & F2 & T2 & V2 & C2). unfold final in *.
    exists (sent1 ++ sent2). rewrite E2, E1, app_assoc.
    repeat split; try congruence. now apply Forall_app.
Qed.

Lemma sends_consoleLog (msg : string) : sends P (consoleLog msg).
Proof.
  intros w s. exists []. unfold final, consoleLog, modify. simpl. rewrite app_nil_r. auto.
Qed.

Lemma sends_appendLog (msg : string) : sends P (appendLog msg).
Proof.
  intros w s. exists []. unfold final, appendLog.
  destruct (appendFileSync w (logfile s) msg); simpl; rewrite app_nil_r; auto.
Qed.

Lemma sends_publish_log (msg : string) : sends P (Publish.log msg).
Proof.
  unfold Publish.log. apply sends_bind; [apply sends_consoleLog | intros _].
  apply sends_tryCatch; [apply sends_appendLog | intros _; apply sends_consoleLog].
Qed.

Lemma sends_index_log (msg : string) : sends P (Index.log msg).
Proof.
  unfold Index.log. apply sends_bind; [apply sends_consoleLog | intros _].
  apply sends_tryCatch; [apply sends_appendLog | intros _; apply sends_ret].
Qed.

Lemma sends_mapM {A B} (f : A -> M B) (l : list A) :
  (forall a, sends P (f a)) -> sends P (mapM f l).
Proof.
  intros Hf. induction l as [| a l IH]; simpl.
  - apply sends_ret.
  - apply sends_bind; [apply Hf | intros b].
    apply sends_bind; [apply IH | intros bs]. apply sends_ret.
Qed.

End Sends.

Lemma sends_weaken (P Q : Request -> Prop) {A} (m : M A) :
  (forall r, P r -> Q r) -> sends P m -> sends Q m.
Proof.
  intros HPQ Hm w s. destruct (Hm w s) as (sent & E & F & T).
  exists sent. repeat split; try tauto. eapply Forall_impl; eauto.
Qed.

(** Both logs always return, and change nothing but the console and the
    log file. *)
Lemma publish_log_ok (msg : string) (w : World) (s : State) :
  result (Publish.log msg) w s = Ok tt /\ obs_eq (final (Publish.log msg) w s) s.
Proof.
  unfold result, final, Publish.log, bind, tryCatch, consoleLog, modify, appendLog.
  cbn [fst snd].
  destruct (appendFileSync w _ msg); cbn [fst snd]; split; try reflexivity;
    unfold obs_eq; simpl; auto.
Qed.

Lemma index_log_ok (msg : string) (w : World) (s : State) :
  result (Index.log msg) w s = Ok tt /\ obs_eq (final (Index.log msg) w s) s.
Proof.
  unfold result, final, Index.log, bind, tryCatch, consoleLog, modify, appendLog, ret.
  cbn [fst snd].
  destruct (appendFileSync w _ msg); cbn [fst snd]; split; try reflexivity;
    unfold obs_eq; simpl; auto.
Qed.

(** One step of a proof that an operation is [blind] or [sends]. *)
Ltac run_step :=
  match goal with
  | |- LogBlind _ => exact _
  | |- blind _ (bind _ _) => apply blind_bind; [ | intros ? ]
  | |- blind _ (tryCatch _ _) => apply blind_tryCatch; [ | intros ? ]
  | |- blind _ (ret _) => apply blind_ret
  | |- blind _ (throw _) => apply blind_throw
  | |- blind _ (send _) => apply blind_send
  | |- blind _ (reads _) => apply blind_reads; reflexivity
  | |- blind _ (call _) => apply blind_call; reflexivity
  | |- blind _ (Publish.log _) => apply blind_publish_log
  | |- blind _ (Index.log _) => apply blind_index_log
  | |- blind _ (mapM _ _) => apply blind_mapM; intros ?
  | |- sends _ (bind _ _) => apply sends_bind; [ | intros ? ]
  | |- sends _ (tryCatch _ _) => apply sends_tryCatch; [ | intros ? ]
  | |- sends _ (ret _) => apply sends_ret
  | |- sends _ (throw _) => apply sends_throw
  | |- sends _ (send _) => apply sends_send; first [ reflexivity | assumption | simpl; auto ]
  | |- sends _ (reads _) => apply sends_reads
  | |- sends _ (call _) => apply sends_call
  | |- sends _ (Publish.log _) => apply sends_publish_log
  | |- sends _ (Index.log _) => apply sends_index_log
  | |- sends _ (mapM _ _) => apply sends_mapM; intros ?
  | |- blind _ (if ?c then _ else _) => destruct c
  | |- sends _ (if ?c then _ else _) => destruct c
  | |- blind _ (match ?x with _ => _ end) => destruct x
  | |- sends _ (match ?x with _ => _ end) => destruct x
  end.

(** ** The pipeline, whatever the log file does *)

Section PipelineBlind.

Context (R : State -> State -> Prop) {HR : LogBlind R}.

Lemma blind_fetchAccessToken appid appsecret :
  blind R (Publish.fetchAccessToken appid appsecret).
Proof. unfold Publish.fetchAccessToken. repeat run_step. Qed.

Lemma blind_uploadMaterial type fileData fileName accessToken :
  blind R (Publish.uploadMaterial type fileData fileName accessToken).
Proof. unfold Publish.uploadMaterial. repeat run_step. Qed.

Lemma blind_uploadImage imageUrl accessToken fileName :
  blind R (Publish.uploadImage imageUrl accessToken fileName).
Proof.
  unfold Publish.uploadImage. repeat first [ apply blind_uploadMaterial | run_step ].
Qed.

Lemma blind_uploadPromise accessToken dataSrc :
  blind R (Publish.uploadPromise accessToken dataSrc).
Proof.
  unfold Publish.uploadPromise. repeat first [ apply blind_uploadImage | run_step ].
Qed.

Lemma blind_uploadImages content accessToken :
  blind R (Publish.uploadImages content accessToken).
Proof.
  unfold Publish.uploadImages. repeat first [ apply blind_uploadPromise | run_step ].
Qed.

Lemma blind_resolveCover cover firstImageId accessToken :
  blind R (Publish.resolveCover cover firstImageId accessToken).
Proof.
  unfold Publish.resolveCover. repeat first [ apply blind_uploadImage | run_step ].
Qed.

Lemma blind_publishToDraft title content cover appid appsecret :
  blind R (Publish.publishToDraft title content cover appid appsecret).
Proof.
  unfold Publish.publishToDraft.
  repeat first [ apply blind_fetchAccessToken | apply blind_uploadImages
               | apply blind_resolveCover | run_step ].
Qed.

Lemma blind_callTool request : blind R (Index.callTool request).
Proof.
  unfold Index.callTool, Index.publishAndReport.
  repeat first [ apply blind_publishToDraft | run_step ].
Qed.

End PipelineBlind.

(** ** What the pipeline sends *)

Lemma sends_uploadMaterial (P : Request -> Prop) type fileData fileName accessToken :
  P (MaterialUpload type fileData fileName accessToken) ->
  sends P (Publish.uploadMaterial type fileData fileName accessToken).
Proof. intros HP. unfold Publish.uploadMaterial. repeat run_step. Qed.

Lemma notDraft_fetchAccessToken appid appsecret :
  sends notDraft (Publish.fetchAccessToken appid appsecret).
Proof. unfold Publish.fetchAccessToken. repeat run_step. Qed.

Lemma notDraft_uploadImage imageUrl accessToken fileName :
  sends notDraft (Publish.uploadImage imageUrl accessToken fileName).
Proof.
  unfold Publish.uploadImage.
  repeat first [ apply sends_uploadMaterial; reflexivity | run_step ].
Qed.

Lemma notDraft_uploadPromise accessToken dataSrc :
  sends notDraft (Publish.uploadPromise accessToken dataSrc).
Proof.
  unfold Publish.uploadPromise. repeat first [ apply notDraft_uploadImage | run_step ].
Qed.

Lemma notDraft_uploadImages content accessToken :
  sends notDraft (Publish.uploadImages content accessToken).
Proof.
  unfold Publish.uploadImages. repeat first [ apply notDraft_uploadPromise | run_step ].
Qed.

Lemma notDraft_resolveCover cover firstImageId accessToken :
  sends notDraft (Publish.resolveCover cover firstImageId accessToken).
Proof.
  unfold Publish.resolveCover. repeat first [ apply notDraft_uploadImage | run_step ].
Qed.

Lemma notDraft_titled (t : string) (r : Request) : notDraft r -> titled t r.
Proof. destruct r; simpl; auto. unfold notDraft. simpl. discriminate. Qed.

Lemma titled_publishToDraft title content cover appid appsecret :
  sends (titled title) (Publish.publishToDraft title content cover appid appsecret).
Proof.
  unfold Publish.publishToDraft.
  repeat first
    [ apply (sends_weaken notDraft (titled title) _ (notDraft_titled title));
      first [ apply notDraft_fetchAccessToken | apply notDraft_uploadImages
            | apply notDraft_resolveCover ]
    | run_step ].
Qed.

Lemma draftsOf_app (l1 l2 : list Request) : draftsOf (l1 ++ l2) = draftsOf l1 ++ draftsOf l2.
Proof. unfold draftsOf. apply List.filter_app. Qed.

Lemma draftsOf_notDraft (l : list Request) : Forall notDraft l -> draftsOf l = [].
Proof.
  induction 1 as [| r l Hr _ IH]; simpl; [reflexivity |].
  unfold notDraft in Hr. now rewrite Hr.
Qed.

Lemma drafts_kept {A} (m : M A) (w : World) (s : State) :
  sends notDraft m -> draftsOf (requests (final m w s)) = draftsOf (requests s).
Proof.
  intros Hm. destruct (Hm w s) as (sent & E & F & _).
  rewrite E, draftsOf_app, (draftsOf_notDraft sent F). apply app_nil_r.
Qed.

(** ** Results do not depend on the state the pipeline starts from *)

Lemma withLogFile_id (w : World) : withLogFile w (appendFileSync w) = w.
Proof. destruct w; reflexivity. Qed.

Lemma result_any_state {A} (m : M A) (w : World) (s1 s2 : State) :
  blind anyStates m -> result m w s1 = result m w s2.
Proof.
  intros Hm.
  destruct (Hm w (appendFileSync w) (appendFileSync w) s1 s2 I) as [H _].
  now rewrite withLogFile_id in H.
Qed.

Lemma run_eta {A} (m : M A) (w : World) (s : State) : m w s = (result m w s, final m w s).
Proof. unfold result, final. now destruct (m w s). Qed.

Lemma bind_ok {A B} (m : M A) (f : A -> M B) w s a :
  result m w s = Ok a -> bind m f w s = f a w (final m w s).
Proof. intros H. unfold bind. rewrite (run_eta m w s), H. reflexivity. Qed.

Lemma bind_index_log {B} (msg : string) (f : unit -> M B) w s :
  bind (Index.log msg) f w s = f tt w (final (Index.log msg) w s).
Proof. apply bind_ok. apply index_log_ok. Qed.

Lemma bind_reads {A B} (g : World -> A) (f : A -> M B) w s :
  bind (reads g) f w s = f (g w) w s.
Proof. reflexivity. Qed.

(** ** The dispatcher, whatever the log file does *)

Lemma blind_gets {A} (f : State -> A) :
  (forall s1 s2, obs_eq s1 s2 -> f s1 = f s2) -> blind obs_eq (gets f).
Proof.
  intros Hf w fs1 fs2 s1 s2 H. unfold result, final, gets. simpl.
  split; [now rewrite (Hf s1 s2 H) | exact H].
Qed.

Lemma blind_modify (f : State -> State) :
  (forall s1 s2, obs_eq s1 s2 -> obs_eq (f s1) (f s2)) -> blind obs_eq (modify f).
Proof.
  intros Hf w fs1 fs2 s1 s2 H. unfold result, final, modify. simpl.
  split; [reflexivity | now apply Hf].
Qed.

Ltac obs_step :=
  match goal with
  | |- blind obs_eq (gets _) =>
      apply blind_gets; unfold obs_eq; simpl; intros; intuition congruence
  | |- blind obs_eq (modify _) =>
      apply blind_modify; unfold obs_eq; simpl; intros; intuition congruence
  end.

Lemma blind_onsessioninitialized transport server sid :
  blind obs_eq (Index.onsessioninitialized transport server sid).
Proof. unfold Index.onsessioninitialized. repeat first [ obs_step | run_step ]. Qed.

Lemma blind_onclose transport : blind obs_eq (Index.onclose transport).
Proof. unfold Index.onclose. repeat first [ obs_step | run_step ]. Qed.

Lemma blind_transportHandleRequest transport server req :
  blind obs_eq (Index.transportHandleRequest transport server req).
Proof.
  unfold Index.transportHandleRequest.
  repeat first [ apply blind_onsessioninitialized | apply blind_onclose | obs_step | run_step ].
Qed.

Lemma blind_callHandleRequest transport server req :
  blind obs_eq (Index.callHandleRequest transport server req).
Proof.
  unfold Index.callHandleRequest.
  repeat first [ apply blind_transportHandleRequest | run_step ].
Qed.

Lemma blind_handlePost transport server req :
  blind obs_eq (Index.handlePost transport server req).
Proof.
  unfold Index.handlePost. repeat first [ apply blind_callHandleRequest | run_step ].
Qed.

Lemma blind_post req : blind obs_eq (Index.post req).
Proof.
  unfold Index.post. repeat first [ apply blind_handlePost | obs_step | run_step ].
Qed.

Lemma blind_handleSessionRequest req : blind obs_eq (Index.handleSessionRequest req).
Proof.
  unfold Index.handleSessionRequest.
  repeat first [ apply blind_callHandleRequest | obs_step | run_step ].
Qed.

Lemma blind_route req : blind obs_eq (Index.route req).
Proof.
  unfold Index.route.
  destruct (method req); first [ apply blind_post | apply blind_handleSessionRequest ].
Qed.

(** ** Stepping through a run *)

Lemma result_bind {A B} (m : M A) (f : A -> M B) w s :
  result (bind m f) w s =
  match result m w s with
  | Ok a => result (f a) w (final m w s)
  | Throw e => Throw e
  end.
Proof.
  unfold result at 1. unfold bind. rewrite (run_eta m w s).
  destruct (result m w s); reflexivity.
Qed.

Lemma final_bind {A B} (m : M A) (f : A -> M B) w s :
  final (bind m f) w s =
  match result m w s with
  | Ok a => final (f a) w (final m w s)
  | Throw e => final m w s
  end.
Proof.
  unfold final at 1. unfold bind. rewrite (run_eta m w s).
  destruct (result m w s); reflexivity.
Qed.

Lemma result_publish_log {B} (msg : string) (f : unit -> M B) w s :
  result (bind (Publish.log msg) f) w s = result (f tt) w (final (Publish.log msg) w s).
Proof. rewrite result_bind. now destruct (publish_log_ok msg w s) as [-> _]. Qed.

Lemma final_publish_log {B} (msg : string) (f : unit -> M B) w s :
  final (bind (Publish.log msg) f) w s = final (f tt) w (final (Publish.log msg) w s).
Proof. rewrite final_bind. now destruct (publish_log_ok msg w s) as [-> _]. Qed.

Lemma result_index_log {B} (msg : string) (f : unit -> M B) w s :
  result (bind (Index.log msg) f) w s = result (f tt) w (final (Index.log msg) w s).
Proof. rewrite result_bind. now destruct (index_log_ok msg w s) as [-> _]. Qed.

Lemma final_index_log {B} (msg : string) (f : unit -> M B) w s :
  final (bind (Index.log msg) f) w s = final (f tt) w (final (Index.log msg) w s).
Proof. rewrite final_bind. now destruct (index_log_ok msg w s) as [-> _]. Qed.

Lemma result_send {B} (r : Request) (f : unit -> M B) w s :
  result (bind (send r) f) w s = result (f tt) w (setRequests (requests s ++ [r]) s).
Proof. reflexivity. Qed.

Lemma final_send {B} (r : Request) (f : unit -> M B) w s :
  final (bind (send r) f) w s = final (f tt) w (setRequests (requests s ++ [r]) s).
Proof. reflexivity. Qed.

Lemma result_reads {A B} (g : World -> A) (f : A -> M B) w s :
  result (bind (reads g) f) w s = result (f (g w)) w s.
Proof. reflexivity. Qed.

Lemma final_reads {A B} (g : World -> A) (f : A -> M B) w s :
  final (bind (reads g) f) w s = final (f (g w)) w s.
Proof. reflexivity. Qed.

Lemma result_gets {A B} (g : State -> A) (f : A -> M B) w s :
  result (bind (gets g) f) w s = result (f (g s)) w s.
Proof. reflexivity. Qed.

Lemma final_gets {A B} (g : State -> A) (f : A -> M B) w s :
  final (bind (gets g) f) w s = final (f (g s)) w s.
Proof. reflexivity. Qed.

Lemma result_call {A B} (g : World -> Result A) (f : A -> M B) w s :
  result (bind (call g) f) w s =
  match g w with
  | Ok a => result (f a) w s
  | Throw e => Throw e
  end.
Proof. unfold result, bind, call. now destruct (g w). Qed.

Lemma final_call {A B} (g : World -> Result A) (f : A -> M B) w s :
  final (bind (call g) f) w s =
  match g w with
  | Ok a => final (f a) w s
  | Throw e => s
  end.
Proof. unfold final, bind, call. now destruct (g w). Qed.

Lemma result_ret_bind {A B} (a : A) (f : A -> M B) w s :
  result (bind (ret a) f) w s = result (f a) w s.
Proof. reflexivity. Qed.

Lemma final_ret_bind {A B} (a : A) (f : A -> M B) w s :
  final (bind (ret a) f) w s = final (f a) w s.
Proof. reflexivity. Qed.

Lemma result_ret {A} (a : A) w s : result (ret a) w s = Ok a.
Proof. reflexivity. Qed.

Lemma result_throw {A} (e : Error) w s : result (@throw A e) w s = Throw e.
Proof. reflexivity. Qed.

Lemma final_ret {A} (a : A) w s : final (ret a) w s = s.
Proof. reflexivity. Qed.

Lemma final_throw {A} (e : Error) w s : final (@throw A e) w s = s.
Proof. reflexivity. Qed.

(** What a log leaves in place. *)
Lemma requests_publish_log msg w s : requests (final (Publish.log msg) w s) = requests s.
Proof. apply publish_log_ok. Qed.
Lemma transports_publish_log msg w s : transports (final (Publish.log msg) w s) = transports s.
Proof. apply publish_log_ok. Qed.
Lemma servers_publish_log msg w s : servers (final (Publish.log msg) w s) = servers s.
Proof. apply publish_log_ok. Qed.
Lemma created_publish_log msg w s : created (final (Publish.log msg) w s) = created s.
Proof. apply publish_log_ok. Qed.
Lemma requests_index_log msg w s : requests (final (Index.log msg) w s) = requests s.
Proof. apply index_log_ok. Qed.
Lemma transports_index_log msg w s : transports (final (Index.log msg) w s) = transports s.
Proof. apply index_log_ok. Qed.
Lemma servers_index_log msg w s : servers (final (Index.log msg) w s) = servers s.
Proof. apply index_log_ok. Qed.
Lemma created_index_log msg w s : created (final (Index.log msg) w s) = created s.
Proof. apply index_log_ok. Qed.

Create Rewrite HintDb logs.
#[global] Hint Rewrite requests_publish_log transports_publish_log servers_publish_log
  created_publish_log requests_index_log transports_index_log servers_index_log
  created_index_log : logs.

(** The fields of a state after the logs written since. *)
Ltac settle := repeat (progress (cbn [requests transports servers created setRequests
                                     setTransports setServers setCreated];
                                 autorewrite with logs)).

(** Rewriting a run one statement at a time. *)
Ltac step :=
  repeat first
    [ rewrite result_publish_log | rewrite final_publish_log
    | rewrite result_index_log | rewrite final_index_log
    | rewrite result_send | rewrite final_send
    | rewrite result_reads | rewrite final_reads
    | rewrite result_gets | rewrite final_gets
    | rewrite result_call | rewrite final_call
    | rewrite result_ret_bind | rewrite final_ret_bind
    | rewrite result_ret | rewrite final_ret
    | rewrite result_throw | rewrite final_throw ].

(** ** [replace] with the pattern ["http://"] *)

Lemma replace_unfold (s pat rep : string) :
  JS.replace s pat rep =
  if JS.startsWith s pat then rep +:+ JS.sliceFrom (String.length pat) s
  else match s with
       | EmptyString => EmptyString
       | String c s' => String c (JS.replace s' pat rep)
       end.
Proof. destruct s; reflexivity. Qed.

Lemma replace_prefix (s pat rep : string) :
  JS.startsWith s pat = true ->
  JS.replace s pat rep = rep +:+ JS.sliceFrom (String.length pat) s.
Proof. intros H. now rewrite replace_unfold, H. Qed.

Lemma includes_unfold (s p : string) :
  JS.includes s p =
  JS.startsWith s p || match s with
                       | EmptyString => false
                       | String _ s' => JS.includes s' p
                       end.
Proof. destruct s; reflexivity. Qed.

Lemma replace_absent (s pat rep : string) :
  JS.includes s pat = false -> JS.replace s pat rep = s.
Proof.
  induction s as [| c s IH]; intros H; rewrite includes_unfold in H;
    apply orb_false_iff in H as [H1 H2]; rewrite replace_unfold, H1.
  - reflexivity.
  - now rewrite IH.
Qed.

Ltac http_level :=
  rewrite replace_unfold;
  match goal with
  | |- context [if JS.startsWith ?s ?p then _ else _] =>
      let E := fresh "E" in
      destruct (JS.startsWith s p) eqn:E;
      [ reflexivity
      | destruct s as [| ?c s];
        [ reflexivity
        | cbn [JS.startsWith];
          match goal with
          | |- (Ascii.eqb ?c ?x && _)%bool = false =>
              destruct (Ascii.eqb_spec c x); [ subst c; cbn [andb] | reflexivity ]
          end ] ]
  end.

Lemma replace_http_not_http (s : string) :
  JS.startsWith (JS.replace s "http://" "https://") "http://" = false.
Proof.
  do 7 http_level.
  match goal with
  | H : JS.startsWith (String "h" _) "http://" = false |- _ => discriminate H
  end.
Qed.

(** ** The Media Uploader: the returned URL *)

(** What a successful [uploadMaterial] returns: the remote's media id, and
    the remote's URL through [replace]. *)
Lemma uploadMaterial_ok w s type fileData fileName accessToken resp :
  result (Publish.uploadMaterial type fileData fileName accessToken) w s = Ok resp ->
  exists reply remote,
    materialEndpoint w type fileData fileName accessToken = Ok reply /\
    up_url reply = Some remote /\
    media_id resp = up_media_id reply /\
    url resp = JS.replace remote "http://" "https://".
Proof.
  unfold Publish.uploadMaterial. step.
  destruct (materialEndpoint w type fileData fileName accessToken) as [reply | e];
    [| discriminate].
  destruct (negb (up_ok reply)); step; [discriminate |].
  destruct (negb (up_errcode reply =? 0)); step; [discriminate |].
  destruct (up_url reply) as [remote |] eqn:Hurl; step; [| discriminate].
  intros [= <-]. exists reply, remote. auto.
Qed.

(** C2, the part that holds: the URL of a successful upload never begins
    with [http://]. *)
Lemma uploadMaterial_url_never_http w s type fileData fileName accessToken resp :
  result (Publish.uploadMaterial type fileData fileName accessToken) w s = Ok resp ->
  JS.startsWith (url resp) "http://" = false.
Proof.
  intros H. apply uploadMaterial_ok in H as (reply & remote & _ & _ & _ & ->).
  apply replace_http_not_http.
Qed.

(** The mocked remote answers with an [http://] URL. *)
Lemma uploadMaterial_url_never_http_witness :
  JS.startsWith "https://mmbiz.qpic.cn/a.png" "http://" = false.
Proof.
  apply (uploadMaterial_url_never_http Sample.world Sample.start "image" "bytes" "a.png" "TOKEN"
           {| media_id := "media-a.png"; url := "https://mmbiz.qpic.cn/a.png" |}).
  reflexivity.
Defined.

(** C2, where the substitution is the prefix substitution: on a URL that
    begins with [http://], and on a URL that does not contain it. *)
Lemma uploadMaterial_url_prefix w s type fileData fileName accessToken resp reply remote :
  result (Publish.uploadMaterial type fileData fileName accessToken) w s = Ok resp ->
  materialEndpoint w type fileData fileName accessToken = Ok reply ->
  up_url reply = Some remote ->
  (JS.startsWith remote "http://" = true ->
   url resp = "https://" +:+ JS.sliceFrom 7 remote) /\
  (JS.includes remote "http://" = false -> url resp = remote).
Proof.
  intros H E Hurl. apply uploadMaterial_ok in H as (reply' & remote' & E' & Hurl' & _ & ->).
  rewrite E in E'. injection E' as <-. rewrite Hurl in Hurl'. injection Hurl' as <-.
  split; intros Hu.
  - now rewrite replace_prefix.
  - now apply replace_absent.
Qed.

(** C2 at the failing input: the remote returns a secure URL whose query
    holds [http://]; the returned URL is not the remote's, and no leading
    [http://] was there to replace. *)
Lemma uploadMaterial_rewrites_inner_http :
  let remote := "https://mmbiz.qpic.cn/a?from=http://b.example/" in
  JS.startsWith remote "http://" = false /\
  result (Publish.uploadMaterial "image" "bytes" "a.png" "TOKEN")
    (Sample.answering remote) Sample.start
  = Ok {| media_id := "media-a.png";
          url := "https://mmbiz.qpic.cn/a?from=https://b.example/" |}.
Proof. split; reflexivity. Qed.

(** ** The Access Token Provider *)

(** The credentials a call uses (lines 32-33). *)
Lemma credential_precedence (given default : option string) :
  (JS.truthyOpt given = true -> Some (JS.orStr (JS.or given default) "") = given) /\
  (JS.truthyOpt given = false -> JS.orStr (JS.or given default) "" = JS.orStr default "").
Proof.
  unfold JS.or. split; intros H; rewrite H; [| reflexivity].
  destruct given as [g |]; simpl in *; [now rewrite H | discriminate].
Qed.

(** C4, as the code has it: the credentials are the call's when they are
    not empty, else the defaults, else the empty string; the token request
    is sent with them in every case, and the call fails only by the
    remote's answer. *)
Theorem fetchAccessToken_always_asks w s appid appsecret :
  let id := JS.orStr (JS.or appid (WECHAT_APP_ID w)) "" in
  let secret := JS.orStr (JS.or appsecret (WECHAT_APP_SECRET w)) "" in
  ((JS.truthyOpt appid = true -> Some id = appid) /\
   (JS.truthyOpt appid = false -> id = JS.orStr (WECHAT_APP_ID w) "") /\
   (JS.truthyOpt appsecret = true -> Some secret = appsecret) /\
   (JS.truthyOpt appsecret = false -> secret = JS.orStr (WECHAT_APP_SECRET w) "")) /\
  requests (final (Publish.fetchAccessToken appid appsecret) w s)
    = requests s ++ [TokenRequest id secret] /\
  result (Publish.fetchAccessToken appid appsecret) w s
    = match tokenEndpoint w id secret with
      | Throw e => Throw e
      | Ok data =>
          if JS.truthy (access_token data) then Ok data
          else if negb (token_errcode data =? 0)
               then Throw (TokenRemoteError (token_errcode data) (token_errmsg data))
               else Throw TokenUnexpectedError
      end.
Proof.
  intros id secret. split; [| split].
  - destruct (credential_precedence appid (WECHAT_APP_ID w)) as [H1 H2].
    destruct (credential_precedence appsecret (WECHAT_APP_SECRET w)) as [H3 H4].
    auto.
  - unfold Publish.fetchAccessToken. step. fold id secret.
    destruct (tokenEndpoint w id secret) as [data | e]; [| now settle].
    destruct (JS.truthy (access_token data)); step; [now settle |].
    destruct (negb (token_errcode data =? 0)); step; now settle.
  - unfold Publish.fetchAccessToken. step. fold id secret.
    destruct (tokenEndpoint w id secret) as [data | e]; [| reflexivity].
    destruct (JS.truthy (access_token data)); step; [reflexivity |].
    destruct (negb (token_errcode data =? 0)); step; reflexivity.
Qed.

(** C4 as stated fails: no credentials in the call, none in the environment,
    and a remote that answers with a token; the token request goes out with
    empty credentials and the call returns the token. *)
Lemma fetchAccessToken_empty_credentials :
  WECHAT_APP_ID Sample.world = None /\
  WECHAT_APP_SECRET Sample.world = None /\
  requests (final (Publish.fetchAccessToken None None) Sample.world Sample.start)
    = [TokenRequest "" ""] /\
  result (Publish.fetchAccessToken None None) Sample.world Sample.start
    = Ok {| access_token := "TOKEN"; token_errcode := 0; token_errmsg := "" |}.
Proof. repeat split. Qed.

(** ** The Image Relocator *)

Lemma mapM_ok {A B} (f : A -> M B) (l : list A) w s bs :
  result (mapM f l) w s = Ok bs ->
  Forall2 (fun a b => exists s0, result (f a) w s0 = Ok b) l bs.
Proof.
  revert s bs. induction l as [| a l IH]; intros s bs; simpl.
  - step. intros [= <-]. constructor.
  - rewrite result_bind. destruct (result (f a) w s) as [b | e] eqn:Ea; [| discriminate].
    rewrite result_bind.
    destruct (result (mapM f l) w (final (f a) w s)) as [bs' | e] eqn:El; [| discriminate].
    step. intros [= <-]. constructor; eauto.
Qed.

Lemma uploadPromise_ok w s s0 accessToken src out :
  result (Publish.uploadPromise accessToken src) w s0 = Ok out ->
  relocatedAs w s accessToken src out.
Proof.
  unfold Publish.uploadPromise, relocatedAs.
  destruct src as [u |]; [| step; now intros [= <-]].
  destruct (JS.truthy u); [| step; now intros [= <-]].
  destruct (JS.startsWith u Publish.cdnPrefix); simpl; [step; now intros [= <-] |].
  rewrite result_bind.
  destruct (result (Publish.uploadImage u accessToken None) w s0) as [resp | e] eqn:E;
    [| discriminate].
  step. intros [= <-]. exists resp. split; [| reflexivity].
  rewrite <- E. apply result_any_state. apply blind_uploadImage. exact _.
Qed.

(** What [uploadImages] returns once the text [<img] is there. *)
Lemma uploadImages_ok w s content accessToken r :
  JS.includes content "<img" = true ->
  result (Publish.uploadImages content accessToken) w s = Ok r ->
  exists settled,
    Forall2 (relocatedAs w s accessToken) (images (JSDOM w content)) settled /\
    Publish.html r = serialize w {| images := map fst settled;
                                    remainder := remainder (JSDOM w content) |} /\
    Publish.firstImageId r = JS.orStr (head (JS.filterBoolean (map snd settled))) "".
Proof.
  intros Hin. unfold Publish.uploadImages. step. rewrite Hin. cbn [negb]. step.
  rewrite result_bind.
  match goal with
  | |- context [result (mapM ?f ?l) w ?s0] =>
      destruct (result (mapM f l) w s0) as [settled | e] eqn:E; [| discriminate]
  end.
  step. intros [= <-]. exists settled. repeat split.
  apply mapM_ok in E. eapply Forall2_impl; [exact E |].
  intros src out [s0 H]. eapply uploadPromise_ok; eauto.
Qed.

(** C5, as the code has it: without the text [<img] the input comes back
    as it is, with an empty id and nothing sent; with that text but no
    [img] element, the id is empty and nothing is sent, and the html is
    the serialized document. *)
Theorem uploadImages_without_img w s content accessToken :
  (JS.includes content "<img" = false ->
   result (Publish.uploadImages content accessToken) w s
     = Ok {| Publish.html := content; Publish.firstImageId := "" |} /\
   requests (final (Publish.uploadImages content accessToken) w s) = requests s) /\
  (JS.includes content "<img" = true ->
   images (JSDOM w content) = [] ->
   result (Publish.uploadImages content accessToken) w s
     = Ok {| Publish.html := serialize w (JSDOM w content); Publish.firstImageId := "" |} /\
   requests (final (Publish.uploadImages content accessToken) w s) = requests s).
Proof.
  split.
  - intros Hin. unfold Publish.uploadImages. step. rewrite Hin. cbn [negb]. step.
    split; [reflexivity | now settle].
  - intros Hin Himg. unfold Publish.uploadImages. step. rewrite Hin. cbn [negb]. step.
    rewrite result_bind, final_bind, Himg. cbn [mapM]. step. cbn [map head JS.filterBoolean].
    split; [| now settle].
    destruct (JSDOM w content) as [imgs rest]. simpl in Himg. subst imgs. reflexivity.
Qed.

(** Both cases in the mocked world: a page without image, and [<imgx>]. *)
Lemma uploadImages_without_img_witness :
  (result (Publish.uploadImages "<p>hello</p>" "TOKEN") Sample.world Sample.start
     = Ok {| Publish.html := "<p>hello</p>"; Publish.firstImageId := "" |} /\
   requests (final (Publish.uploadImages "<p>hello</p>" "TOKEN") Sample.world Sample.start)
     = []) /\
  (result (Publish.uploadImages "<imgx>" "TOKEN") Sample.world Sample.start
     = Ok {| Publish.html := serialize Sample.world (JSDOM Sample.world "<imgx>");
             Publish.firstImageId := "" |} /\
   requests (final (Publish.uploadImages "<imgx>" "TOKEN") Sample.world Sample.start) = []).
Proof.
  split.
  - apply (uploadImages_without_img Sample.world Sample.start "<p>hello</p>" "TOKEN").
    reflexivity.
  - apply (uploadImages_without_img Sample.world Sample.start "<imgx>" "TOKEN");
      reflexivity.
Defined.

(** C5 as stated fails: [<imgx>] holds no [img] element, yet it holds the
    text [<img]; the document is parsed and serialized, and what comes back
    is not the input. *)
Lemma uploadImages_imgx_not_identity :
  images (JSDOM Sample.world "<imgx>") = [] /\
  result (Publish.uploadImages "<imgx>" "TOKEN") Sample.world Sample.start
    = Ok {| Publish.html := "<html><head></head><body><imgx></imgx></body></html>";
            Publish.firstImageId := "" |} /\
  "<html><head></head><body><imgx></imgx></body></html>" <> "<imgx>".
Proof. repeat split. discriminate. Qed.

Lemma skipped_ids w s accessToken (pre : list (option string)) settled :
  Forall (fun o => JS.truthyOpt o = false) pre ->
  Forall2 (relocatedAs w s accessToken) pre settled ->
  JS.filterBoolean (map snd settled) = [] /\ map fst settled = pre.
Proof.
  intros Hpre H. induction H as [| src out pre settled Hout _ IH]; [now split |].
  apply Forall_cons_iff in Hpre as [Hsrc Hpre]. destruct (IH Hpre) as [IH1 IH2].
  unfold relocatedAs in Hout. destruct src as [u |]; simpl in Hsrc.
  - rewrite Hsrc in Hout. subst out. simpl. now rewrite IH1, IH2.
  - subst out. simpl. now rewrite IH1, IH2.
Qed.

(** C6, as the code has it.  Once the text [<img] is there and the call
    succeeds: every element is settled by [relocatedAs] (an element
    without [src], with an empty [src] or on the CDN keeps its attribute,
    any other gets the uploaded URL), and the fallback id comes from the
    first element with a non-empty [src]: its [src] if it is on the CDN,
    else the media id of its upload, when that id is not empty. *)
Theorem uploadImages_first_image w s content accessToken r pre src post :
  JS.includes content "<img" = true ->
  result (Publish.uploadImages content accessToken) w s = Ok r ->
  images (JSDOM w content) = pre ++ Some src :: post ->
  Forall (fun o => JS.truthyOpt o = false) pre ->
  JS.truthy src = true ->
  (exists settled,
     Forall2 (relocatedAs w s accessToken) (images (JSDOM w content)) settled /\
     Publish.html r = serialize w {| images := map fst settled;
                                     remainder := remainder (JSDOM w content) |}) /\
  (if JS.startsWith src Publish.cdnPrefix
   then Publish.firstImageId r = src
   else exists resp,
          result (Publish.uploadImage src accessToken None) w s = Ok resp /\
          (JS.truthy (media_id resp) = true -> Publish.firstImageId r = media_id resp)).
Proof.
  intros Hin Hr Himgs Hpre Hsrc.
  destruct (uploadImages_ok w s content accessToken r Hin Hr) as (settled & Hall & Hhtml & Hfirst).
  split; [exists settled; now split |].
  rewrite Himgs in Hall.
  apply Forall2_app_inv_l in Hall as (spre & srest & Hspre & Hsrest & ->).
  apply Forall2_cons_inv_l in Hsrest as (out & spost & Hout & _ & ->).
  destruct (skipped_ids w s accessToken pre spre Hpre Hspre) as [Hnone _].
  rewrite map_app, map_cons in Hfirst.
  assert (Hfb : forall l1 l2, JS.filterBoolean (l1 ++ l2)
                              = JS.filterBoolean l1 ++ JS.filterBoolean l2).
  { induction l1 as [| [x |] l1 IH]; intros l2; simpl; [reflexivity | | apply IH].
    destruct (JS.truthy x); simpl; now rewrite IH. }
  rewrite Hfb, Hnone in Hfirst. cbn [app] in Hfirst.
  unfold relocatedAs in Hout. rewrite Hsrc in Hout.
  destruct (JS.startsWith src Publish.cdnPrefix).
  - subst out. cbn [snd JS.filterBoolean] in Hfirst. rewrite Hsrc in Hfirst.
    cbn [head JS.orStr] in Hfirst. now rewrite Hsrc in Hfirst.
  - destruct Hout as (resp & Hresp & ->). exists resp. split; [exact Hresp |].
    intros Hid. cbn [snd JS.filterBoolean] in Hfirst. rewrite Hid in Hfirst.
    cbn [head JS.orStr] in Hfirst. now rewrite Hid in Hfirst.
Qed.

(** Scenario A of the specification in the mocked world: one remote image. *)
Lemma uploadImages_first_image_witness :
  let content := "<img src='https://example.com/a.png'>" in
  let r := {| Publish.html :=
                serialize Sample.world
                  {| images := [Some "https://mmbiz.qpic.cn/a.png"]; remainder := "" |};
              Publish.firstImageId := "media-a.png" |} in
  (exists settled,
     Forall2 (relocatedAs Sample.world Sample.start "TOKEN")
       (images (JSDOM Sample.world content)) settled /\
     Publish.html r = serialize Sample.world
                        {| images := map fst settled;
                           remainder := remainder (JSDOM Sample.world content) |}) /\
  (exists resp,
     result (Publish.uploadImage "https://example.com/a.png" "TOKEN" None)
       Sample.world Sample.start = Ok resp /\
     (JS.truthy (media_id resp) = true -> Publish.firstImageId r = media_id resp)).
Proof.
  intros content r.
  apply (uploadImages_first_image Sample.world Sample.start content "TOKEN" r
           [] "https://example.com/a.png" []); try reflexivity.
  constructor.
Defined.

(** C6 as stated fails: the first [img] element has a [src] attribute, the
    empty one, which is not on the CDN; nothing is uploaded for it (its
    upload would fail), its [src] is not rewritten, and the fallback id is
    the media id of the second element. *)
Lemma uploadImages_skips_empty_src :
  let content := "<img src=''><img src='a.png'>" in
  images (JSDOM Sample.world content) = [Some ""; Some "a.png"] /\
  JS.startsWith "" Publish.cdnPrefix = false /\
  result (Publish.uploadImages content "TOKEN") Sample.world Sample.start
    = Ok {| Publish.html :=
              serialize Sample.world
                {| images := [Some ""; Some "https://mmbiz.qpic.cn/a.png"]; remainder := "" |};
            Publish.firstImageId := "media-a.png" |} /\
  requests (final (Publish.uploadImages content "TOKEN") Sample.world Sample.start)
    = [FileRead "a.png"; MaterialUpload "image" "file" "a.png" "TOKEN"] /\
  result (Publish.uploadImage "" "TOKEN" None) Sample.world Sample.start
    = Throw (FileError "ENOENT").
Proof. repeat split. Qed.

(** ** Local image references *)

Lemma uploadMaterial_requests w s type fileData fileName accessToken :
  requests (final (Publish.uploadMaterial type fileData fileName accessToken) w s)
  = requests s ++ [MaterialUpload type fileData fileName accessToken].
Proof.
  unfold Publish.uploadMaterial. step.
  destruct (materialEndpoint w type fileData fileName accessToken) as [reply | e];
    [| now settle].
  destruct (negb (up_ok reply)); step; [now settle |].
  destruct (negb (up_errcode reply =? 0)); step; [now settle |].
  destruct (up_url reply); step; now settle.
Qed.

(** C8, as the code has it.  With a host prefix configured, a reference
    that does not begin with [http] is read at [localImagePath]: the
    reference with the container prefix in place of the host prefix when
    it begins with the host prefix, the reference itself when it does not
    contain the host prefix.  The file is read there, and it is uploaded
    under the name the caller gave, or else under the last segment of that
    path, with [.jpg] appended when [extname] finds no extension. *)
Theorem uploadImage_local w s imageUrl accessToken fileName :
  JS.truthy (Publish.hostImagePath w) = true ->
  JS.startsWith imageUrl "http" = false ->
  let path := Publish.localImagePath w imageUrl in
  let segment := Path.basename path in
  let name :=
    match fileName with
    | Some given => given
    | None => if String.eqb (Path.extname segment) "" then segment +:+ ".jpg" else segment
    end in
  (JS.startsWith imageUrl (Publish.hostImagePath w) = true ->
   path = Publish.dockerImagePath
            +:+ JS.sliceFrom (String.length (Publish.hostImagePath w)) imageUrl) /\
  (JS.includes imageUrl (Publish.hostImagePath w) = false -> path = imageUrl) /\
  requests (final (Publish.uploadImage imageUrl accessToken fileName) w s)
  = requests s ++ FileRead path ::
      match fileFromPath w path with
      | Ok file => [MaterialUpload "image" file name accessToken]
      | Throw _ => []
      end.
Proof.
  intros Hhost Hlocal path segment name. split; [| split].
  - intros Hpre. unfold path, Publish.localImagePath. rewrite Hhost.
    now apply replace_prefix.
  - intros Habs. unfold path, Publish.localImagePath. rewrite Hhost.
    now apply replace_absent.
  - unfold Publish.uploadImage. step. rewrite Hlocal. step. fold path.
    destruct (fileFromPath w path) as [file | e]; [| now settle].
    rewrite uploadMaterial_requests. settle.
    replace (Publish.imageName fileName path) with name
      by (unfold name, Publish.imageName, JS.nullish; now destruct fileName).
    now rewrite <- app_assoc.
Qed.

(** A download of the host, without extension, in the mocked world. *)
Lemma uploadImage_local_witness :
  (Publish.localImagePath Sample.world "/Users/me/Downloads/pic"
   = "/mnt/host-downloads/pic") /\
  requests (final (Publish.uploadImage "/Users/me/Downloads/pic" "TOKEN" None)
              Sample.world Sample.start)
  = [FileRead "/mnt/host-downloads/pic"; MaterialUpload "image" "file" "pic.jpg" "TOKEN"].
Proof.
  destruct (uploadImage_local Sample.world Sample.start "/Users/me/Downloads/pic" "TOKEN" None
              eq_refl eq_refl) as (H1 & _ & H3).
  split; [exact (H1 eq_refl) | exact H3].
Defined.

(** C8 as stated fails.  A cover that is a local path is uploaded as
    [cover.jpg], not under its last segment; and a reference that holds the
    host prefix further in is changed there. *)
Lemma uploadImage_local_cover_name :
  Path.basename "/Users/me/Downloads/pic.png" = "pic.png" /\
  requests (final (Publish.uploadImage "/Users/me/Downloads/pic.png" "TOKEN" (Some "cover.jpg"))
              Sample.world Sample.start)
  = [FileRead "/mnt/host-downloads/pic.png"; MaterialUpload "image" "file" "cover.jpg" "TOKEN"] /\
  JS.startsWith "/data/Users/me/Downloads/pic.png" (Publish.hostImagePath Sample.world) = false /\
  requests (final (Publish.uploadImage "/data/Users/me/Downloads/pic.png" "TOKEN" None)
              Sample.world Sample.start)
  = [FileRead "/data/mnt/host-downloads/pic.png";
     MaterialUpload "image" "file" "pic.png" "TOKEN"].
Proof. repeat split. Qed.

(** ** The Draft Publisher: the cover *)

Lemma truthy_true (x : string) : JS.truthy x = true <-> x <> "".
Proof.
  unfold JS.truthy. destruct (String.eqb_spec x "") as [-> | Hne]; simpl; split; intros H;
    first [ discriminate | reflexivity | assumption | now elim H ].
Qed.

(** The three ways of lines 138-149. *)
Lemma resolveCover_cases cover firstImageId accessToken :
  (JS.truthy cover = true ->
   Publish.resolveCover cover firstImageId accessToken
   = (resp <- Publish.uploadImage cover accessToken (Some "cover.jpg") ;;
      ret (media_id resp))) /\
  (JS.truthy cover = false -> JS.startsWith firstImageId Publish.cdnPrefix = true ->
   Publish.resolveCover cover firstImageId accessToken
   = (resp <- Publish.uploadImage firstImageId accessToken (Some "cover.jpg") ;;
      ret (media_id resp))) /\
  (JS.truthy cover = false -> JS.startsWith firstImageId Publish.cdnPrefix = false ->
   Publish.resolveCover cover firstImageId accessToken = ret firstImageId).
Proof.
  unfold Publish.resolveCover. split; [| split].
  - intros H. now rewrite H.
  - intros H H'. now rewrite H, H'.
  - intros H H'. now rewrite H, H'.
Qed.

(** An upload under a given name uses that name. *)
Lemma imageName_given (given path : string) : Publish.imageName (Some given) path = given.
Proof. reflexivity. Qed.

Lemma draftsOf_snoc_draft (l : list Request) a b c d :
  draftsOf (l ++ [DraftAdd a b c d]) = draftsOf l ++ [DraftAdd a b c d].
Proof. now rewrite draftsOf_app. Qed.

(** A call whose three first steps give [tk], [r] and [thumb] (the result
    of a step is the same from every state, [result_any_state]). *)
Lemma publishToDraft_steps w s title content cover appid appsecret tk r thumb :
  result (Publish.fetchAccessToken appid appsecret) w s = Ok tk ->
  result (Publish.uploadImages content (access_token tk)) w s = Ok r ->
  result (Publish.resolveCover cover (Publish.firstImageId r) (access_token tk)) w s
    = Ok thumb ->
  let run := Publish.publishToDraft title content cover appid appsecret in
  (JS.truthy thumb = false ->
   result run w s = Throw MissingCoverError /\
   draftsOf (requests (final run w s)) = draftsOf (requests s)) /\
  (JS.truthy thumb = true ->
   draftsOf (requests (final run w s))
     = draftsOf (requests s) ++ [DraftAdd (access_token tk) title (Publish.html r) thumb] /\
   result run w s
     = match draftEndpoint w (access_token tk) title (Publish.html r) thumb with
       | Throw e => Throw e
       | Ok data =>
           if JS.truthy (draft_media_id data) then Ok data
           else if negb (draft_errcode data =? 0)
                then Throw (DraftRemoteError (draft_errcode data) (draft_errmsg data))
                else Throw DraftUnexpectedError
       end).
Proof.
  intros Htk Hr Hthumb run.
  set (s0 := final (Publish.log "Publishing to draft") w s).
  set (s1 := final (Publish.fetchAccessToken appid appsecret) w s0).
  set (s2 := final (Publish.uploadImages content (access_token tk)) w s1).
  set (s3 := final (Publish.resolveCover cover (Publish.firstImageId r)
                      (access_token tk)) w s2).
  assert (Htk0 : result (Publish.fetchAccessToken appid appsecret) w s0 = Ok tk).
  { rewrite <- Htk. apply result_any_state, blind_fetchAccessToken. exact _. }
  assert (Hr1 : result (Publish.uploadImages content (access_token tk)) w s1 = Ok r).
  { rewrite <- Hr. apply result_any_state, blind_uploadImages. exact _. }
  assert (Hthumb2 : result (Publish.resolveCover cover (Publish.firstImageId r)
                              (access_token tk)) w s2 = Ok thumb).
  { rewrite <- Hthumb. apply result_any_state, blind_resolveCover. exact _. }
  assert (Hd3 : draftsOf (requests s3) = draftsOf (requests s)).
  { unfold s3. rewrite (drafts_kept _ w s2 (notDraft_resolveCover _ _ _)).
    unfold s2. rewrite (drafts_kept _ w s1 (notDraft_uploadImages _ _)).
    unfold s1. rewrite (drafts_kept _ w s0 (notDraft_fetchAccessToken _ _)).
    unfold s0. now settle. }
  unfold run, Publish.publishToDraft.
  rewrite result_publish_log, final_publish_log. fold s0.
  rewrite result_bind, final_bind, Htk0. fold s1.
  rewrite result_bind, final_bind, Hr1. fold s2.
  rewrite result_bind, final_bind, Hthumb2. fold s3.
  split; intros Ht; rewrite Ht; cbn [negb]; step.
  - split; [reflexivity |]. now settle.
  - destruct (draftEndpoint w (access_token tk) title (Publish.html r) thumb) as [data | e].
    + destruct (JS.truthy (draft_media_id data)); step.
      * split; [| reflexivity]. settle. now rewrite draftsOf_snoc_draft, Hd3.
      * destruct (negb (draft_errcode data =? 0)); step;
          (split; [| reflexivity]); settle; now rewrite draftsOf_snoc_draft, Hd3.
    + split; [| reflexivity]. settle. now rewrite draftsOf_snoc_draft, Hd3.
Qed.

(** A call that returns has passed the three steps, with a cover id. *)
Lemma publishToDraft_ok w s title content cover appid appsecret data :
  result (Publish.publishToDraft title content cover appid appsecret) w s = Ok data ->
  exists tk r thumb,
    result (Publish.fetchAccessToken appid appsecret) w s = Ok tk /\
    result (Publish.uploadImages content (access_token tk)) w s = Ok r /\
    result (Publish.resolveCover cover (Publish.firstImageId r) (access_token tk)) w s
      = Ok thumb /\
    JS.truthy thumb = true.
Proof.
  unfold Publish.publishToDraft. rewrite result_publish_log, result_bind.
  destruct (result (Publish.fetchAccessToken appid appsecret) w _) as [tk | e] eqn:Htk;
    [| discriminate].
  rewrite result_bind.
  destruct (result (Publish.uploadImages content (access_token tk)) w _) as [r | e] eqn:Hr;
    [| discriminate].
  rewrite result_bind.
  destruct (result (Publish.resolveCover cover (Publish.firstImageId r) (access_token tk)) w _)
    as [thumb | e] eqn:Hthumb; [| discriminate].
  destruct (JS.truthy thumb) eqn:Ht; cbn [negb]; step; [| discriminate].
  intros _. exists tk, r, thumb. repeat split; try assumption.
  - rewrite <- Htk. apply result_any_state, blind_fetchAccessToken. exact _.
  - rewrite <- Hr. apply result_any_state, blind_uploadImages. exact _.
  - rewrite <- Hthumb. apply result_any_state, blind_resolveCover. exact _.
Qed.

(** The requests of a call that reaches the draft step: those sent up to
    the end of the relocation step, those of the cover step, and the draft
    request. *)
Lemma publishToDraft_sent w s title content cover appid appsecret tk r thumb :
  result (Publish.fetchAccessToken appid appsecret) w s = Ok tk ->
  result (Publish.uploadImages content (access_token tk)) w s = Ok r ->
  result (Publish.resolveCover cover (Publish.firstImageId r) (access_token tk)) w s
    = Ok thumb ->
  JS.truthy thumb = true ->
  exists s2 before,
    requests s2 = requests s ++ before /\
    requests (final (Publish.publishToDraft title content cover appid appsecret) w s)
    = requests (final (Publish.resolveCover cover (Publish.firstImageId r)
                         (access_token tk)) w s2)
      ++ [DraftAdd (access_token tk) title (Publish.html r) thumb].
Proof.
  intros Htk Hr Hthumb Ht.
  set (s0 := final (Publish.log "Publishing to draft") w s).
  set (s1 := final (Publish.fetchAccessToken appid appsecret) w s0).
  set (s2 := final (Publish.uploadImages content (access_token tk)) w s1).
  assert (Htk0 : result (Publish.fetchAccessToken appid appsecret) w s0 = Ok tk).
  { rewrite <- Htk. apply result_any_state, blind_fetchAccessToken. exact _. }
  assert (Hr1 : result (Publish.uploadImages content (access_token tk)) w s1 = Ok r).
  { rewrite <- Hr. apply result_any_state, blind_uploadImages. exact _. }
  assert (Hthumb2 : result (Publish.resolveCover cover (Publish.firstImageId r)
                              (access_token tk)) w s2 = Ok thumb).
  { rewrite <- Hthumb. apply result_any_state, blind_resolveCover. exact _. }
  destruct (notDraft_fetchAccessToken appid appsecret w s0) as (sent1 & E1 & _).
  destruct (notDraft_uploadImages content (access_token tk) w s1) as (sent2 & E2 & _).
  exists s2, (sent1 ++ sent2). split.
  - unfold s2. rewrite E2. unfold s1. rewrite E1. unfold s0. settle.
    now rewrite app_assoc.
  - unfold Publish.publishToDraft.
    rewrite final_publish_log. fold s0.
    rewrite final_bind, Htk0. fold s1.
    rewrite final_bind, Hr1. fold s2.
    rewrite final_bind, Hthumb2, Ht. cbn [negb]. step.
    destruct (draftEndpoint w (access_token tk) title (Publish.html r) thumb) as [data | e];
      [| now settle].
    destruct (JS.truthy (draft_media_id data)); step; [now settle |].
    destruct (negb (draft_errcode data =? 0)); step; now settle.
Qed.

(** An image uploaded under a given name: the download or the file read,
    then the upload under that name. *)
Lemma uploadImage_named w s imageUrl accessToken name resp :
  result (Publish.uploadImage imageUrl accessToken (Some name)) w s = Ok resp ->
  exists fetched fileData,
    requests (final (Publish.uploadImage imageUrl accessToken (Some name)) w s)
    = requests s ++ [fetched; MaterialUpload "image" fileData name accessToken].
Proof.
  unfold Publish.uploadImage. step. rewrite !imageName_given.
  destruct (JS.startsWith imageUrl "http"); step.
  - destruct (imageEndpoint w imageUrl) as [reply | e]; [| discriminate].
    destruct (negb (img_ok reply) || negb (img_hasBody reply)); step; [discriminate |].
    intros _. exists (ImageDownload imageUrl), (img_bytes reply).
    rewrite uploadMaterial_requests. settle. now rewrite <- app_assoc.
  - destruct (fileFromPath w (Publish.localImagePath w imageUrl)) as [file | e];
      [| discriminate].
    intros _. exists (FileRead (Publish.localImagePath w imageUrl)), file.
    rewrite uploadMaterial_requests. settle. now rewrite <- app_assoc.
Qed.

(** The cover step when it uploads [source] under [cover.jpg]. *)
Lemma publishToDraft_uploaded_cover w s title content cover appid appsecret tk r source resp :
  result (Publish.fetchAccessToken appid appsecret) w s = Ok tk ->
  result (Publish.uploadImages content (access_token tk)) w s = Ok r ->
  Publish.resolveCover cover (Publish.firstImageId r) (access_token tk)
  = (resp <- Publish.uploadImage source (access_token tk) (Some "cover.jpg") ;;
     ret (media_id resp)) ->
  result (Publish.uploadImage source (access_token tk) (Some "cover.jpg")) w s = Ok resp ->
  media_id resp <> "" ->
  let run := Publish.publishToDraft title content cover appid appsecret in
  (draftsOf (requests (final run w s))
   = draftsOf (requests s)
     ++ [DraftAdd (access_token tk) title (Publish.html r) (media_id resp)] /\
   result run w s
   = match draftEndpoint w (access_token tk) title (Publish.html r) (media_id resp) with
     | Throw e => Throw e
     | Ok data =>
         if JS.truthy (draft_media_id data) then Ok data
         else if negb (draft_errcode data =? 0)
              then Throw (DraftRemoteError (draft_errcode data) (draft_errmsg data))
              else Throw DraftUnexpectedError
     end) /\
  exists before fetched fileData,
    requests (final run w s)
    = requests s ++ before
      ++ [fetched; MaterialUpload "image" fileData "cover.jpg" (access_token tk);
          DraftAdd (access_token tk) title (Publish.html r) (media_id resp)].
Proof.
  intros Htk Hr Hcase Hresp Hne run. apply truthy_true in Hne.
  assert (Hany : forall s', result (Publish.uploadImage source (access_token tk)
                                      (Some "cover.jpg")) w s' = Ok resp).
  { intros s'. rewrite <- Hresp. apply result_any_state, blind_uploadImage. exact _. }
  assert (Hthumb : forall s', result (Publish.resolveCover cover (Publish.firstImageId r)
                                        (access_token tk)) w s' = Ok (media_id resp)).
  { intros s'. rewrite Hcase, result_bind, Hany. reflexivity. }
  split.
  - apply (publishToDraft_steps w s title content cover appid appsecret tk r (media_id resp)
             Htk Hr (Hthumb s)). exact Hne.
  - destruct (publishToDraft_sent w s title content cover appid appsecret tk r (media_id resp)
                Htk Hr (Hthumb s) Hne) as (s2 & before & Hbefore & Hsent).
    destruct (uploadImage_named w s2 source (access_token tk) "cover.jpg" resp (Hany s2))
      as (fetched & fileData & Hup).
    exists before, fetched, fileData. fold run in Hsent. rewrite Hsent, Hcase.
    rewrite final_bind, (Hany s2). rewrite final_ret, Hup, Hbefore.
    now rewrite <- !app_assoc.
Qed.

(** C1.  Take a call whose token step gives [tk] and whose relocation step
    gives [r] (the result of a step is the same from every state,
    [result_any_state], so these are the steps of this call).

    - Without a cover and with an empty fallback id, the call throws
      [MissingCoverError] and sends no draft request.
    - With a cover, the cover is uploaded under the name [cover.jpg]; when
      that upload returns a media id that is not empty, the draft request
      carries that id.
    - Without a cover and with a fallback id on the CDN, that URL is
      uploaded under the name [cover.jpg]; when that upload returns a media
      id that is not empty, the draft request carries that id.
    - Without a cover and with any other fallback id that is not empty,
      the draft request carries the fallback id.

    In the last three cases one draft request goes out, with the title and
    the relocated html, and the call ends as the draft endpoint answers;
    where the cover is uploaded, the upload under [cover.jpg] is the request
    just before the draft request. *)
Theorem publishToDraft_cover w s title content cover appid appsecret tk r :
  result (Publish.fetchAccessToken appid appsecret) w s = Ok tk ->
  result (Publish.uploadImages content (access_token tk)) w s = Ok r ->
  let run := Publish.publishToDraft title content cover appid appsecret in
  let token := access_token tk in
  let submitted (thumb : string) :=
    draftsOf (requests (final run w s))
      = draftsOf (requests s) ++ [DraftAdd token title (Publish.html r) thumb] /\
    result run w s
      = match draftEndpoint w token title (Publish.html r) thumb with
        | Throw e => Throw e
        | Ok data =>
            if JS.truthy (draft_media_id data) then Ok data
            else if negb (draft_errcode data =? 0)
                 then Throw (DraftRemoteError (draft_errcode data) (draft_errmsg data))
                 else Throw DraftUnexpectedError
        end in
  let uploadedAsCover (thumb : string) :=
    exists before fetched fileData,
      requests (final run w s)
      = requests s ++ before
        ++ [fetched; MaterialUpload "image" fileData "cover.jpg" token;
            DraftAdd token title (Publish.html r) thumb] in
  (cover = "" -> Publish.firstImageId r = "" ->
   result run w s = Throw MissingCoverError /\
   draftsOf (requests (final run w s)) = draftsOf (requests s)) /\
  (cover <> "" ->
   forall resp,
     result (Publish.uploadImage cover token (Some "cover.jpg")) w s = Ok resp ->
     media_id resp <> "" ->
     submitted (media_id resp) /\ uploadedAsCover (media_id resp)) /\
  (cover = "" -> JS.startsWith (Publish.firstImageId r) Publish.cdnPrefix = true ->
   forall resp,
     result (Publish.uploadImage (Publish.firstImageId r) token (Some "cover.jpg")) w s
       = Ok resp ->
     media_id resp <> "" ->
     submitted (media_id resp) /\ uploadedAsCover (media_id resp)) /\
  (cover = "" -> JS.startsWith (Publish.firstImageId r) Publish.cdnPrefix = false ->
   Publish.firstImageId r <> "" ->
   submitted (Publish.firstImageId r)).
Proof.
  intros Htk Hr run token submitted uploadedAsCover.
  destruct (resolveCover_cases cover (Publish.firstImageId r) (access_token tk))
    as (Hc1 & Hc2 & Hc3).
  split; [| split; [| split]].
  - intros Hcover Hfirst.
    apply (publishToDraft_steps w s title content cover appid appsecret tk r "" Htk Hr);
      [| reflexivity].
    rewrite Hcover, Hfirst. reflexivity.
  - intros Hcover resp Hresp Hne. apply truthy_true in Hcover.
    exact (publishToDraft_uploaded_cover w s title content cover appid appsecret tk r
             cover resp Htk Hr (Hc1 Hcover) Hresp Hne).
  - intros Hcover Hcdn resp Hresp Hne.
    assert (Hfalse : JS.truthy cover = false) by now rewrite Hcover.
    exact (publishToDraft_uploaded_cover w s title content cover appid appsecret tk r
             (Publish.firstImageId r) resp Htk Hr (Hc2 Hfalse Hcdn) Hresp Hne).
  - intros Hcover Hcdn Hne.
    assert (Hfalse : JS.truthy cover = false) by now rewrite Hcover.
    apply (publishToDraft_steps w s title content cover appid appsecret tk r
             (Publish.firstImageId r) Htk Hr).
    + rewrite (Hc3 Hfalse Hcdn). reflexivity.
    + now apply truthy_true.
Qed.

(** The four cases in the mocked world: an article without image and
    without cover; a cover given by the caller; an article whose only image
    is on the CDN; and an article with one remote image. *)
Lemma publishToDraft_cover_witness :
  let tk := {| access_token := "TOKEN"; token_errcode := 0; token_errmsg := "" |} in
  let relocated (u : string) :=
    serialize Sample.world {| images := [Some u]; remainder := "" |} in
  let draft := {| draft_media_id := "draft-1"; draft_errcode := 0; draft_errmsg := "" |} in
  let run title content cover :=
    Publish.publishToDraft title content cover None None in
  (result (run "T" "<p>hello</p>" "") Sample.world Sample.start = Throw MissingCoverError /\
   draftsOf (requests (final (run "T" "<p>hello</p>" "") Sample.world Sample.start)) = []) /\
  (draftsOf (requests (final (run "T" "<p>hello</p>" "https://example.com/c.png")
                         Sample.world Sample.start))
     = [DraftAdd "TOKEN" "T" "<p>hello</p>" "media-cover.jpg"] /\
   result (run "T" "<p>hello</p>" "https://example.com/c.png") Sample.world Sample.start
     = Ok draft) /\
  (draftsOf (requests (final (run "T" "<img src='https://mmbiz.qpic.cn/x/0'>" "")
                         Sample.world Sample.start))
     = [DraftAdd "TOKEN" "T" (relocated "https://mmbiz.qpic.cn/x/0") "media-cover.jpg"] /\
   result (run "T" "<img src='https://mmbiz.qpic.cn/x/0'>" "") Sample.world Sample.start
     = Ok draft) /\
  (draftsOf (requests (final (run "T" "<img src='https://example.com/a.png'>" "")
                         Sample.world Sample.start))
     = [DraftAdd "TOKEN" "T" (relocated "https://mmbiz.qpic.cn/a.png") "media-a.png"] /\
   result (run "T" "<img src='https://example.com/a.png'>" "") Sample.world Sample.start
     = Ok draft).
Proof.
  intros tk relocated draft run. split; [| split; [| split]].
  - destruct (publishToDraft_cover Sample.world Sample.start "T" "<p>hello</p>" "" None None tk
                {| Publish.html := "<p>hello</p>"; Publish.firstImageId := "" |}
                eq_refl eq_refl) as (Hnone & _).
    apply Hnone; reflexivity.
  - destruct (publishToDraft_cover Sample.world Sample.start "T" "<p>hello</p>"
                "https://example.com/c.png" None None tk
                {| Publish.html := "<p>hello</p>"; Publish.firstImageId := "" |}
                eq_refl eq_refl) as (_ & Hgiven & _).
    apply (Hgiven ltac:(discriminate)
             {| media_id := "media-cover.jpg"; url := "https://mmbiz.qpic.cn/cover.jpg" |});
      [reflexivity | discriminate].
  - destruct (publishToDraft_cover Sample.world Sample.start "T"
                "<img src='https://mmbiz.qpic.cn/x/0'>" "" None None tk
                {| Publish.html := relocated "https://mmbiz.qpic.cn/x/0";
                   Publish.firstImageId := "https://mmbiz.qpic.cn/x/0" |}
                eq_refl eq_refl) as (_ & _ & Hcdn & _).
    apply (Hcdn eq_refl eq_refl
             {| media_id := "media-cover.jpg"; url := "https://mmbiz.qpic.cn/cover.jpg" |});
      [reflexivity | discriminate].
  - destruct (publishToDraft_cover Sample.world Sample.start "T"
                "<img src='https://example.com/a.png'>" "" None None tk
                {| Publish.html := relocated "https://mmbiz.qpic.cn/a.png";
                   Publish.firstImageId := "media-a.png" |}
                eq_refl eq_refl) as (_ & _ & _ & Hfirst).
    apply (Hfirst eq_refl eq_refl). discriminate.
Defined.

(** ** The pipeline does not look at the front-matter splitter *)

Lemma fmFree_ret {A} (a : A) : fmFree (ret a).
Proof. intros w h s. reflexivity. Qed.

Lemma fmFree_throw {A} (e : Error) : fmFree (@throw A e).
Proof. intros w h s. reflexivity. Qed.

Lemma fmFree_send (r : Request) : fmFree (send r).
Proof. intros w h s. reflexivity. Qed.

Lemma fmFree_reads {A} (f : World -> A) :
  (forall w h, f (withFrontMatter w h) = f w) -> fmFree (reads f).
Proof. intros Hf w h s. unfold reads. now rewrite Hf. Qed.

Lemma fmFree_call {A} (f : World -> Result A) :
  (forall w h, f (withFrontMatter w h) = f w) -> fmFree (call f).
Proof. intros Hf w h s. unfold call. now rewrite Hf. Qed.

Lemma fmFree_bind {A B} (m : M A) (f : A -> M B) :
  fmFree m -> (forall a, fmFree (f a)) -> fmFree (bind m f).
Proof.
  intros Hm Hf w h s. unfold bind. rewrite Hm.
  destruct (m w s) as [[a | e] s']; [apply Hf | reflexivity].
Qed.

Lemma fmFree_tryCatch {A} (m : M A) (k : Error -> M A) :
  fmFree m -> (forall e, fmFree (k e)) -> fmFree (tryCatch m k).
Proof.
  intros Hm Hk w h s. unfold tryCatch. rewrite Hm.
  destruct (m w s) as [[a | e] s']; [reflexivity | apply Hk].
Qed.

Lemma fmFree_publish_log (msg : string) : fmFree (Publish.log msg).
Proof. intros w h s. reflexivity. Qed.

Lemma fmFree_index_log (msg : string) : fmFree (Index.log msg).
Proof. intros w h s. reflexivity. Qed.

Lemma fmFree_mapM {A B} (f : A -> M B) (l : list A) :
  (forall a, fmFree (f a)) -> fmFree (mapM f l).
Proof.
  intros Hf. induction l as [| a l IH]; simpl.
  - apply fmFree_ret.
  - apply fmFree_bind; [apply Hf | intros b].
    apply fmFree_bind; [apply IH | intros bs]. apply fmFree_ret.
Qed.

Ltac fm_step :=
  match goal with
  | |- fmFree (bind _ _) => apply fmFree_bind; [ | intros ? ]
  | |- fmFree (tryCatch _ _) => apply fmFree_tryCatch; [ | intros ? ]
  | |- fmFree (ret _) => apply fmFree_ret
  | |- fmFree (throw _) => apply fmFree_throw
  | |- fmFree (send _) => apply fmFree_send
  | |- fmFree (reads _) => apply fmFree_reads; reflexivity
  | |- fmFree (call _) => apply fmFree_call; reflexivity
  | |- fmFree (Publish.log _) => apply fmFree_publish_log
  | |- fmFree (Index.log _) => apply fmFree_index_log
  | |- fmFree (mapM _ _) => apply fmFree_mapM; intros ?
  | |- fmFree (if ?c then _ else _) => destruct c
  | |- fmFree (match ?x with _ => _ end) => destruct x
  end.

Lemma fmFree_uploadImage imageUrl accessToken fileName :
  fmFree (Publish.uploadImage imageUrl accessToken fileName).
Proof. unfold Publish.uploadImage, Publish.uploadMaterial. repeat fm_step. Qed.

Lemma fmFree_publishToDraft title content cover appid appsecret :
  fmFree (Publish.publishToDraft title content cover appid appsecret).
Proof.
  unfold Publish.publishToDraft, Publish.fetchAccessToken, Publish.uploadImages,
    Publish.resolveCover, Publish.uploadPromise.
  repeat first [ apply fmFree_uploadImage | fm_step ].
Qed.

(** ** The tool handler *)

Lemma result_tryCatch {A} (m : M A) (h : Error -> M A) w s :
  result (tryCatch m h) w s =
  match result m w s with
  | Ok a => Ok a
  | Throw e => result (h e) w (final m w s)
  end.
Proof.
  unfold result at 1. unfold tryCatch. rewrite (run_eta m w s).
  destruct (result m w s); reflexivity.
Qed.

Lemma final_tryCatch {A} (m : M A) (h : Error -> M A) w s :
  final (tryCatch m h) w s =
  match result m w s with
  | Ok a => final m w s
  | Throw e => final (h e) w (final m w s)
  end.
Proof.
  unfold final at 1. unfold tryCatch. rewrite (run_eta m w s).
  destruct (result m w s); reflexivity.
Qed.

Lemma titled_publishAndReport title html cover appid appsecret :
  sends (titled title) (Index.publishAndReport title html cover appid appsecret).
Proof.
  unfold Index.publishAndReport. repeat first [ apply titled_publishToDraft | run_step ].
Qed.

Lemma fmFree_publishAndReport title html cover appid appsecret :
  fmFree (Index.publishAndReport title html cover appid appsecret).
Proof.
  unfold Index.publishAndReport. repeat first [ apply fmFree_publishToDraft | fm_step ].
Qed.

(** A [publish_article] call, once the value of [theme] is known. *)
Lemma callTool_publish_article w s request :
  Index.tool_name request = "publish_article" ->
  let content := JS.orStr (Index.arg_content request) "" in
  let themeId := JS.orStr (Index.arg_theme_id request) "" in
  let fm := handleFrontMatter w content in
  Index.callTool request w s =
  if Index.isTruthy (Index.selectTheme w themeId) then
    Index.publishAndReport (JS.nullish (fm_title fm) "this is title")
      (renderMarkdown w (fm_body fm) (Index.idOf (Index.selectTheme w themeId)))
      (JS.nullish (fm_cover fm) "") (Index.arg_appid request) (Index.arg_appsecret request) w
      (final (Index.log "Markdown rendered") w
         (final (Index.log "FrontMatter handled") w
            (final (Index.log "CallToolRequestSchema called") w s)))
  else
    (Index.log "Invalid theme ID" ;; throw InvalidThemeError) w
      (final (Index.log "CallToolRequestSchema called") w s).
Proof.
  intros Hname content themeId fm. unfold Index.callTool.
  rewrite bind_index_log, Hname. cbn [String.eqb Ascii.eqb Bool.eqb].
  rewrite bind_reads. fold themeId.
  destruct (Index.isTruthy (Index.selectTheme w themeId)); cbn [negb]; [| reflexivity].
  rewrite bind_reads. fold content fm. rewrite bind_index_log, bind_reads, bind_index_log.
  reflexivity.
Qed.

Lemma final_any_log {A} (m : M A) (w : World) (s1 s2 : State) :
  blind obs_eq m -> obs_eq s1 s2 -> obs_eq (final m w s1) (final m w s2).
Proof.
  intros Hm Hs.
  destruct (Hm w (appendFileSync w) (appendFileSync w) s1 s2 Hs) as [_ H].
  now rewrite withLogFile_id in H.
Qed.

(** A [publish_article] call whose [theme] is truthy ends as
    [publishToDraft] does. *)
Lemma callTool_publishes w s request :
  Index.tool_name request = "publish_article" ->
  let theme := Index.selectTheme w (JS.orStr (Index.arg_theme_id request) "") in
  Index.isTruthy theme = true ->
  let fm := handleFrontMatter w (JS.orStr (Index.arg_content request) "") in
  let run :=
    Publish.publishToDraft (JS.nullish (fm_title fm) "this is title")
      (renderMarkdown w (fm_body fm) (Index.idOf theme))
      (JS.nullish (fm_cover fm) "") (Index.arg_appid request) (Index.arg_appsecret request) in
  result (Index.callTool request) w s
  = match result run w s with
    | Ok response => Ok [Index.TextContent (Index.publishedText (draft_media_id response))]
    | Throw e => Throw e
    end /\
  requests (final (Index.callTool request) w s) = requests (final run w s).
Proof.
  intros Hname theme Htruthy fm run.
  assert (Hrun := callTool_publish_article w s request Hname).
  cbv zeta in Hrun. fold theme in Hrun. rewrite Htruthy in Hrun. fold fm run in Hrun.
  set (s1 := final (Index.log "Markdown rendered") w
               (final (Index.log "FrontMatter handled") w
                  (final (Index.log "CallToolRequestSchema called") w s))) in Hrun.
  assert (Hs1 : obs_eq s1 s) by (unfold s1, obs_eq; now settle).
  assert (Hres : result run w s1 = result run w s).
  { apply result_any_state. apply blind_publishToDraft. exact _. }
  assert (Hfin : requests (final run w s1) = requests (final run w s)).
  { apply (final_any_log run w s1 s); [| exact Hs1]. apply blind_publishToDraft. exact _. }
  unfold result at 1, final at 1. rewrite Hrun.
  change (result (Index.publishAndReport (JS.nullish (fm_title fm) "this is title")
                    (renderMarkdown w (fm_body fm) (Index.idOf theme))
                    (JS.nullish (fm_cover fm) "")
                    (Index.arg_appid request) (Index.arg_appsecret request)) w s1
          = match result run w s with
            | Ok response =>
                Ok [Index.TextContent (Index.publishedText (draft_media_id response))]
            | Throw e => Throw e
            end /\
          requests (final (Index.publishAndReport (JS.nullish (fm_title fm) "this is title")
                             (renderMarkdown w (fm_body fm) (Index.idOf theme))
                             (JS.nullish (fm_cover fm) "")
                             (Index.arg_appid request) (Index.arg_appsecret request)) w s1)
          = requests (final run w s)).
  unfold Index.publishAndReport. fold run.
  rewrite result_tryCatch, final_tryCatch, result_bind, final_bind.
  rewrite <- Hres, <- Hfin.
  destruct (result run w s1) as [response | e]; step; split; first [reflexivity | now settle].
Qed.

Lemma fetchAccessToken_requests w s appid appsecret :
  requests (final (Publish.fetchAccessToken appid appsecret) w s)
  = requests s ++ [TokenRequest (JS.orStr (JS.or appid (WECHAT_APP_ID w)) "")
                     (JS.orStr (JS.or appsecret (WECHAT_APP_SECRET w)) "")].
Proof.
  unfold Publish.fetchAccessToken. step.
  destruct (tokenEndpoint w _ _) as [data | e]; [| now settle].
  destruct (JS.truthy (access_token data)); step; [now settle |].
  destruct (negb (token_errcode data =? 0)); step; now settle.
Qed.

(** The first request of a [publishToDraft] call is its token request. *)
Lemma publishToDraft_asks_first w s title content cover appid appsecret :
  exists rest,
    requests (final (Publish.publishToDraft title content cover appid appsecret) w s)
    = requests s ++ TokenRequest (JS.orStr (JS.or appid (WECHAT_APP_ID w)) "")
                      (JS.orStr (JS.or appsecret (WECHAT_APP_SECRET w)) "") :: rest.
Proof.
  unfold Publish.publishToDraft. rewrite final_publish_log.
  set (s0 := final (Publish.log "Publishing to draft") w s).
  assert (Hs0 : requests s0 = requests s) by (unfold s0; now settle).
  rewrite final_bind.
  destruct (result (Publish.fetchAccessToken appid appsecret) w s0) as [tk | e].
  - match goal with
    | |- context [final ?k w (final ?m w s0)] =>
        assert (Hk : sends (fun _ => True) k)
    end.
    { apply sends_bind;
        [apply (sends_weaken notDraft _ _ (fun _ _ => I)), notDraft_uploadImages | intros r].
      apply sends_bind;
        [apply (sends_weaken notDraft _ _ (fun _ _ => I)), notDraft_resolveCover
        | intros thumb].
      destruct (JS.truthy thumb); cbn [negb]; repeat run_step. }
    destruct (Hk w (final (Publish.fetchAccessToken appid appsecret) w s0))
      as (rest & E & _).
    exists rest. rewrite E, fetchAccessToken_requests, Hs0. now rewrite <- app_assoc.
  - exists []. now rewrite fetchAccessToken_requests, Hs0.
Qed.

Lemma lookupTheme_Some registry key theme :
  Index.lookupTheme registry key = Some theme -> In (key, theme) registry.
Proof.
  unfold Index.lookupTheme.
  destruct (List.find _ registry) as [[k t] |] eqn:E; [| discriminate].
  intros [= <-]. apply find_some in E as [Hin Hk]. simpl in Hk.
  apply String.eqb_eq in Hk. now subst k.
Qed.

(** No entry is stored under [key]. *)
Lemma lookupTheme_absent registry key :
  (forall k theme, In (k, theme) registry -> k <> key) ->
  Index.lookupTheme registry key = None.
Proof.
  intros Habsent. destruct (Index.lookupTheme registry key) as [theme |] eqn:E;
    [| reflexivity].
  apply lookupTheme_Some in E. now elim (Habsent key theme E).
Qed.

(** The names every object inherits are found by [existsb], and none is
    the empty string. *)
Lemma inheritedProperty_In {A} (key : string) :
  In key Index.objectPrototypeKeys -> @Index.inheritedProperty A key = Index.Inherited.
Proof.
  intros Hin. unfold Index.inheritedProperty.
  replace (existsb (String.eqb key) Index.objectPrototypeKeys) with true; [reflexivity |].
  symmetry. apply existsb_exists. exists key. split; [exact Hin | apply String.eqb_refl].
Qed.

Lemma inheritedProperty_not_In {A} (key : string) :
  ~ In key Index.objectPrototypeKeys -> @Index.inheritedProperty A key = Index.Undefined.
Proof.
  intros Hnot. unfold Index.inheritedProperty.
  destruct (existsb (String.eqb key) Index.objectPrototypeKeys) eqn:E; [| reflexivity].
  apply existsb_exists in E as (k & Hin & Hk). apply String.eqb_eq in Hk. subst k.
  now elim Hnot.
Qed.

Lemma objectPrototypeKeys_truthy (key : string) :
  In key Index.objectPrototypeKeys -> JS.truthy key = true.
Proof.
  intros Hin. apply truthy_true. intros ->. simpl in Hin.
  repeat (destruct Hin as [Hin | Hin]; [discriminate Hin |]). exact Hin.
Qed.

(** C3 where it fails.  A theme id that is no key of the registry but the
    name of a property every object inherits ([constructor], [toString],
    [__proto__], ...): [themes[themeId]] is that inherited value, which
    is truthy, so the search by name is skipped and line 130 does not
    throw.  The call goes on as [publishToDraft] does on the body rendered
    with the theme id [undefined]: it ends as the publisher ends, and its
    requests are the publisher's, the token request first. *)
Theorem publish_article_inherited_theme w s request themeId :
  Index.tool_name request = "publish_article" ->
  Index.arg_theme_id request = Some themeId ->
  In themeId Index.objectPrototypeKeys ->
  (forall key theme, In (key, theme) (themes w) -> key <> themeId) ->
  let fm := handleFrontMatter w (JS.orStr (Index.arg_content request) "") in
  let run :=
    Publish.publishToDraft (JS.nullish (fm_title fm) "this is title")
      (renderMarkdown w (fm_body fm) None)
      (JS.nullish (fm_cover fm) "") (Index.arg_appid request) (Index.arg_appsecret request) in
  Index.selectTheme w themeId = Index.Inherited /\
  result (Index.callTool request) w s
  = match result run w s with
    | Ok response => Ok [Index.TextContent (Index.publishedText (draft_media_id response))]
    | Throw e => Throw e
    end /\
  requests (final (Index.callTool request) w s) = requests (final run w s) /\
  exists rest,
    requests (final (Index.callTool request) w s)
    = requests s
      ++ TokenRequest (JS.orStr (JS.or (Index.arg_appid request) (WECHAT_APP_ID w)) "")
           (JS.orStr (JS.or (Index.arg_appsecret request) (WECHAT_APP_SECRET w)) "") :: rest.
Proof.
  intros Hname Hid Hin Hkeys fm run.
  assert (Hsel : Index.selectTheme w themeId = Index.Inherited).
  { unfold Index.selectTheme, Index.themeProperty.
    rewrite (objectPrototypeKeys_truthy themeId Hin).
    rewrite (lookupTheme_absent (themes w) themeId Hkeys).
    now rewrite (inheritedProperty_In themeId Hin). }
  split; [exact Hsel |].
  assert (Htheme : JS.orStr (Index.arg_theme_id request) "" = themeId).
  { rewrite Hid. cbn [JS.orStr]. now rewrite (objectPrototypeKeys_truthy themeId Hin). }
  destruct (callTool_publishes w s request Hname) as [Hres Hreq].
  { rewrite Htheme, Hsel. reflexivity. }
  rewrite Htheme, Hsel in Hres, Hreq. cbn [Index.idOf] in Hres, Hreq.
  fold fm run in Hres, Hreq.
  split; [exact Hres | split; [exact Hreq |]].
  rewrite Hreq. apply publishToDraft_asks_first.
Qed.

(** In the mocked world, the theme id [constructor]: no theme is stored
    under it and none has that name, yet the article is published. *)
Lemma publish_article_inherited_theme_witness :
  Index.lookupTheme (themes Sample.world) "constructor" = None /\
  Index.findByName Sample.world "constructor" = None /\
  result (Index.callTool (Sample.publish (Some "constructor"))) Sample.world Sample.start
  = Ok [Index.TextContent (Index.publishedText "draft-1")].
Proof.
  split; [reflexivity | split; [reflexivity |]].
  destruct (publish_article_inherited_theme Sample.world Sample.start
              (Sample.publish (Some "constructor")) "constructor" eq_refl eq_refl)
    as (_ & Hres & _).
  - simpl. auto.
  - intros key theme [[= <- _] | [[= <- _] | []]]; discriminate.
  - exact Hres.
Defined.

(** With the title [t] in the front matter, the run is the same. *)
Lemma callTool_title_supplied w s request :
  Index.tool_name request = "publish_article" ->
  fm_title (handleFrontMatter w (JS.orStr (Index.arg_content request) "")) = None ->
  Index.callTool request
    (withFrontMatter w (fun c => withTitle "this is title" (handleFrontMatter w c))) s
  = Index.callTool request w s.
Proof.
  intros Hname Hnone.
  rewrite (callTool_publish_article w s request Hname).
  rewrite (callTool_publish_article _ s request Hname).
  cbv zeta. rewrite Hnone.
  change (Index.selectTheme (withFrontMatter w _) ?x) with (Index.selectTheme w x).
  change (toLowerCase (withFrontMatter w _)) with (toLowerCase w).
  unfold final. rewrite !fmFree_index_log.
  destruct (Index.isTruthy (Index.selectTheme w _)).
  - rewrite fmFree_publishAndReport. reflexivity.
  - unfold bind. rewrite fmFree_index_log. reflexivity.
Qed.

(** C9.  A [publish_article] call whose front matter has no title: every
    draft request it sends carries the title ["this is title"]; the caller
    gets the result, and the remote the requests, of the same call on a
    front matter that holds that title; and when the call returns, one
    draft request with that title went out and the answer is the message
    with the media id, and nothing else. *)
Theorem publish_article_placeholder_title w s request :
  Index.tool_name request = "publish_article" ->
  fm_title (handleFrontMatter w (JS.orStr (Index.arg_content request) "")) = None ->
  let supplied :=
    withFrontMatter w (fun c => withTitle "this is title" (handleFrontMatter w c)) in
  (exists sent,
     requests (final (Index.callTool request) w s) = requests s ++ sent /\
     Forall (titled "this is title") sent) /\
  result (Index.callTool request) w s = result (Index.callTool request) supplied s /\
  requests (final (Index.callTool request) w s)
    = requests (final (Index.callTool request) supplied s) /\
  (forall contents,
     result (Index.callTool request) w s = Ok contents ->
     exists data accessToken html thumb,
       contents = [Index.TextContent (Index.publishedText (draft_media_id data))] /\
       draftsOf (requests (final (Index.callTool request) w s))
         = draftsOf (requests s) ++ [DraftAdd accessToken "this is title" html thumb]).
Proof.
  intros Hname Hnone supplied.
  assert (Hsame := callTool_title_supplied w s request Hname Hnone). fold supplied in Hsame.
  assert (Hrun := callTool_publish_article w s request Hname).
  cbv zeta in Hrun. rewrite Hnone in Hrun. cbn [JS.nullish] in Hrun.
  set (s3 := final (Index.log "Markdown rendered") w
               (final (Index.log "FrontMatter handled") w
                  (final (Index.log "CallToolRequestSchema called") w s))) in *.
  assert (Hs3 : requests s3 = requests s) by (unfold s3; now settle).
  split; [| split; [| split]].
  - unfold final. rewrite Hrun.
    destruct (Index.isTruthy (Index.selectTheme w _)).
    + match goal with
      | |- context [snd (?m w s3)] =>
          destruct (titled_publishAndReport "this is title"
                      (renderMarkdown w
                         (fm_body (handleFrontMatter w
                                     (JS.orStr (Index.arg_content request) "")))
                         (Index.idOf (Index.selectTheme w
                                        (JS.orStr (Index.arg_theme_id request) ""))))
                      (JS.nullish (fm_cover (handleFrontMatter w
                                     (JS.orStr (Index.arg_content request) ""))) "")
                      (Index.arg_appid request) (Index.arg_appsecret request) w s3)
            as (sent & E & F & _)
      end.
      exists sent. unfold final in E. rewrite E, Hs3. now split.
    + exists []. rewrite bind_index_log. cbn [throw snd]. settle.
      now rewrite app_nil_r.
  - unfold result. now rewrite Hsame.
  - unfold final. now rewrite Hsame.
  - intros contents. unfold result, final. rewrite Hrun.
    destruct (Index.isTruthy (Index.selectTheme w _));
      [| rewrite bind_index_log; discriminate].
    set (html := renderMarkdown w _ _). set (cover := JS.nullish _ _).
    fold (result (Index.publishAndReport "this is title" html cover
                    (Index.arg_appid request) (Index.arg_appsecret request)) w s3).
    fold (final (Index.publishAndReport "this is title" html cover
                   (Index.arg_appid request) (Index.arg_appsecret request)) w s3).
    unfold Index.publishAndReport.
    rewrite result_tryCatch, final_tryCatch, result_bind, final_bind.
    destruct (result (Publish.publishToDraft "this is title" html cover
                        (Index.arg_appid request) (Index.arg_appsecret request)) w s3)
      as [data | e] eqn:Hpub; step; [| discriminate].
    intros [= <-].
    destruct (publishToDraft_ok _ _ _ _ _ _ _ _ Hpub) as (tk & r & thumb & H1 & H2 & H3 & H4).
    destruct (publishToDraft_steps w s3 "this is title" html cover _ _ tk r thumb H1 H2 H3)
      as [_ Hsteps].
    destruct (Hsteps H4) as [Hdrafts _].
    exists data, (access_token tk), (Publish.html r), thumb. split; [reflexivity |].
    settle. now rewrite Hdrafts, Hs3.
Qed.

(** Scenario A of the specification, which has no front matter. *)
Lemma publish_article_placeholder_title_witness :
  exists data accessToken html thumb,
    [Index.TextContent (Index.publishedText "draft-1")]
      = [Index.TextContent (Index.publishedText (draft_media_id data))] /\
    draftsOf (requests (final (Index.callTool (Sample.publish None)) Sample.world Sample.start))
      = draftsOf (requests Sample.start) ++ [DraftAdd accessToken "this is title" html thumb].
Proof.
  apply (publish_article_placeholder_title Sample.world Sample.start (Sample.publish None)
           eq_refl eq_refl).
  reflexivity.
Defined.

(** ** The dispatcher: unknown session ids *)

Lemma getProperty_undefined {A} (m : gmap string A) (key : string) :
  m !! key = None -> ~ In key Index.objectPrototypeKeys ->
  Index.getProperty m key = Index.Undefined.
Proof.
  intros Hm Hkey. unfold Index.getProperty. rewrite Hm.
  destruct (existsb (String.eqb key) Index.objectPrototypeKeys) eqn:E; [| reflexivity].
  apply existsb_exists in E as (k & Hin & Hk). apply String.eqb_eq in Hk. now subst k.
Qed.

(** C7, as the code has it.  A request with a non-empty session id that is
    no key of [transports], and no name that every object inherits, is
    answered with status 400: by the JSON-RPC error -32000 on POST, by the
    plain text [Invalid or missing session ID] on GET and DELETE.  Nothing
    is sent, no transport is made, and the two maps are as before. *)
Theorem unknown_session_rejected w s req sid :
  sessionHeader req = Some sid ->
  sid <> "" ->
  transports s !! sid = None ->
  ~ In sid Index.objectPrototypeKeys ->
  result (Index.route req) w s
  = Ok match method req with
       | POST => JsonRpcError 400 (-32000) "Bad Request: No valid session ID provided" None None
       | _ => PlainText 400 "Invalid or missing session ID"
       end /\
  obs_eq (final (Index.route req) w s) s.
Proof.
  intros Hsid Hne Hnone Hown. apply truthy_true in Hne.
  assert (Hget : forall s', transports s' = transports s ->
                   Index.getProperty (transports s') sid = Index.Undefined).
  { intros s' ->. now apply getProperty_undefined. }
  unfold Index.route.
  destruct (method req).
  - unfold Index.post. rewrite Hsid. cbn [JS.orStr JS.truthyOpt]. rewrite Hne.
    step. rewrite !Hget by now settle. cbn [Index.isTruthy andb negb]. step.
    split; [reflexivity |]. unfold obs_eq. now settle.
  - unfold Index.handleSessionRequest. rewrite Hsid. cbn [JS.orStr JS.truthyOpt].
    rewrite Hne. step. rewrite !Hget by now settle. cbn [Index.isTruthy orb negb]. step.
    split; [reflexivity |]. unfold obs_eq. now settle.
  - unfold Index.handleSessionRequest. rewrite Hsid. cbn [JS.orStr JS.truthyOpt].
    rewrite Hne. step. rewrite !Hget by now settle. cbn [Index.isTruthy orb negb]. step.
    split; [reflexivity |]. unfold obs_eq. now settle.
Qed.

(** A POST with a stale session id, before any session exists. *)
Lemma unknown_session_rejected_witness :
  result (Index.route (Sample.request POST (Some "stale-session") "ping"))
    Sample.world Sample.start
  = Ok (JsonRpcError 400 (-32000) "Bad Request: No valid session ID provided" None None) /\
  obs_eq (final (Index.route (Sample.request POST (Some "stale-session") "ping"))
            Sample.world Sample.start) Sample.start.
Proof.
  apply (unknown_session_rejected Sample.world Sample.start
           (Sample.request POST (Some "stale-session") "ping") "stale-session").
  - reflexivity.
  - discriminate.
  - reflexivity.
  - simpl. intros H. repeat (destruct H as [H | H]; [discriminate H |]). exact H.
Defined.

(** C7 as stated fails: on GET the rejection is a plain text, with no
    error code; and the session id [constructor], a key of no map, finds
    what every object inherits under that name, so that the POST ends in
    the error -32001. *)
Lemma unknown_session_other_answers :
  transports Sample.start !! "stale-session" = None /\
  result (Index.route (Sample.request GET (Some "stale-session") ""))
    Sample.world Sample.start
  = Ok (PlainText 400 "Invalid or missing session ID") /\
  transports Sample.start !! "constructor" = None /\
  result (Index.route (Sample.request POST (Some "constructor") "ping"))
    Sample.world Sample.start
  = Ok (JsonRpcError 500 (-32001) "Internal server error"
          (Some (TypeError "transport.handleRequest is not a function")) (Some 1)).
Proof. repeat split. Qed.

(** ** The log file *)

(** C10.  Whatever the log file does (it may fail on any append, in one
    run and not in the other), both [log] functions return, and every
    operation of the pipeline and of the dispatcher gives the same result
    and leaves the same requests and session maps. *)
Theorem log_failure_never_propagates w fs1 fs2 s :
  (forall msg,
     result (Publish.log msg) (withLogFile w fs1) s = Ok tt /\
     result (Index.log msg) (withLogFile w fs1) s = Ok tt) /\
  (forall appid appsecret,
     sameOutcome (Publish.fetchAccessToken appid appsecret) w fs1 fs2 s) /\
  (forall type fileData fileName accessToken,
     sameOutcome (Publish.uploadMaterial type fileData fileName accessToken) w fs1 fs2 s) /\
  (forall imageUrl accessToken fileName,
     sameOutcome (Publish.uploadImage imageUrl accessToken fileName) w fs1 fs2 s) /\
  (forall content accessToken,
     sameOutcome (Publish.uploadImages content accessToken) w fs1 fs2 s) /\
  (forall title content cover appid appsecret,
     sameOutcome (Publish.publishToDraft title content cover appid appsecret) w fs1 fs2 s) /\
  (forall request, sameOutcome (Index.callTool request) w fs1 fs2 s) /\
  (forall req, sameOutcome (Index.post req) w fs1 fs2 s) /\
  (forall req, sameOutcome (Index.handleSessionRequest req) w fs1 fs2 s) /\
  (forall req, sameOutcome (Index.route req) w fs1 fs2 s).
Proof.
  unfold sameOutcome. repeat split;
    first [ apply publish_log_ok | apply index_log_ok | idtac ].
  all: first
         [ apply (blind_fetchAccessToken obs_eq)
         | apply (blind_uploadMaterial obs_eq)
         | apply (blind_uploadImage obs_eq)
         | apply (blind_uploadImages obs_eq)
         | apply (blind_publishToDraft obs_eq)
         | apply (blind_callTool obs_eq)
         | apply blind_post
         | apply blind_handleSessionRequest
         | apply blind_route ];
    apply obs_eq_refl.
Qed.

(** A log file that cannot be written: scenario A ends as it does with a
    log file, the console says so, and the file stays empty. *)
Example publish_with_read_only_log :
  let run := Publish.publishToDraft "T" "<img src='https://example.com/a.png'>" "" None None in
  let broken := withLogFile Sample.world Sample.readOnly in
  result run broken Sample.start = result run Sample.world Sample.start /\
  requests (final run broken Sample.start) = requests (final run Sample.world Sample.start) /\
  logfile (final run broken Sample.start) = [] /\
  In "Failed to write to log file" (console (final run broken Sample.start)).
Proof. repeat split. vm_compute. tauto. Qed.

(** * Further properties *)

(** ** The Media Uploader: errors *)

(** One upload request goes out whatever the answer.  A status that is not
    a success fails with [UploadError], whatever the body says; a success
    with a non-zero error code fails with [UploadRemoteError]; a success
    without error code returns the remote's media id, and the remote's URL
    with its first [http://] replaced, when the body has a [url], and
    throws a [TypeError] when it has none. *)
Theorem uploadMaterial_outcome w s type fileData fileName accessToken :
  let run := Publish.uploadMaterial type fileData fileName accessToken in
  requests (final run w s) = requests s ++ [MaterialUpload type fileData fileName accessToken] /\
  (forall e, materialEndpoint w type fileData fileName accessToken = Throw e ->
     result run w s = Throw e) /\
  (forall reply, materialEndpoint w type fileData fileName accessToken = Ok reply ->
     (up_ok reply = false ->
      result run w s = Throw (UploadError (up_status reply) (up_text reply))) /\
     (up_ok reply = true -> up_errcode reply <> 0 ->
      result run w s = Throw (UploadRemoteError (up_errcode reply) (up_errmsg reply))) /\
     (up_ok reply = true -> up_errcode reply = 0 ->
      forall remote, up_url reply = Some remote ->
      result run w s = Ok {| media_id := up_media_id reply;
                             url := JS.replace remote "http://" "https://" |}) /\
     (up_ok reply = true -> up_errcode reply = 0 -> up_url reply = None ->
      result run w s
      = Throw (TypeError "Cannot read properties of undefined (reading 'replace')"))).
Proof.
  intros run. split; [apply uploadMaterial_requests |].
  unfold run, Publish.uploadMaterial. step. split.
  - intros e ->. reflexivity.
  - intros reply ->. repeat split.
    + intros ->. cbn [negb]. now step.
    + intros -> Hne. cbn [negb]. apply Z.eqb_neq in Hne. rewrite Hne. cbn [negb]. now step.
    + intros -> -> remote ->. cbn [negb Z.eqb]. now step.
    + intros -> -> ->. cbn [negb Z.eqb]. now step.
Qed.

(** In the mocked world, and with a remote whose answer has no [url]. *)
Lemma uploadMaterial_outcome_witness :
  result (Publish.uploadMaterial "image" "bytes" "a.png" "TOKEN") Sample.world Sample.start
  = Ok {| media_id := "media-a.png"; url := "https://mmbiz.qpic.cn/a.png" |} /\
  result (Publish.uploadMaterial "image" "bytes" "a.png" "TOKEN") Mock.silent Sample.start
  = Throw (TypeError "Cannot read properties of undefined (reading 'replace')").
Proof.
  split.
  - destruct (uploadMaterial_outcome Sample.world Sample.start "image" "bytes" "a.png" "TOKEN")
      as (_ & _ & Hreply).
    destruct (Hreply _ eq_refl) as (_ & _ & Hok & _).
    exact (Hok eq_refl eq_refl _ eq_refl).
  - destruct (uploadMaterial_outcome Mock.silent Sample.start "image" "bytes" "a.png" "TOKEN")
      as (_ & _ & Hreply).
    destruct (Hreply _ eq_refl) as (_ & _ & _ & Hnone).
    exact (Hnone eq_refl eq_refl eq_refl).
Defined.

(** ** Remote image references *)

(** A reference that begins with [http] is downloaded first.  When the
    download is not a success, or has no body, the call fails with
    [ImageFetchError] and nothing is uploaded; otherwise the bytes are
    uploaded under the name the caller gave, or else under the last
    segment of the URL without its query, with [.jpg] appended when
    [extname] finds no extension. *)
Theorem uploadImage_remote w s imageUrl accessToken fileName :
  JS.startsWith imageUrl "http" = true ->
  let segment := Path.basename (JS.splitHead imageUrl "?"%char) in
  let name :=
    match fileName with
    | Some given => given
    | None => if String.eqb (Path.extname segment) "" then segment +:+ ".jpg" else segment
    end in
  let run := Publish.uploadImage imageUrl accessToken fileName in
  requests (final run w s)
  = requests s ++ ImageDownload imageUrl ::
      match imageEndpoint w imageUrl with
      | Ok reply =>
          if img_ok reply && img_hasBody reply
          then [MaterialUpload "image" (img_bytes reply) name accessToken]
          else []
      | Throw _ => []
      end /\
  (forall reply, imageEndpoint w imageUrl = Ok reply ->
     img_ok reply && img_hasBody reply = false ->
     result run w s = Throw (ImageFetchError imageUrl)).
Proof.
  intros Hhttp segment name run. unfold run, Publish.uploadImage. step. rewrite Hhttp. step.
  assert (Hname : Publish.imageName fileName (JS.splitHead imageUrl "?"%char) = name)
    by (unfold name, Publish.imageName, JS.nullish; now destruct fileName).
  split.
  - destruct (imageEndpoint w imageUrl) as [reply | e]; [| now settle].
    rewrite <- negb_andb. destruct (img_ok reply && img_hasBody reply); cbn [negb].
    + rewrite uploadMaterial_requests, Hname. settle. now rewrite <- app_assoc.
    + step. now settle.
  - intros reply -> Hbad. rewrite <- negb_andb, Hbad. cbn [negb]. now step.
Qed.

(** A remote image with a query and without extension, in the mocked world. *)
Lemma uploadImage_remote_witness :
  requests (final (Publish.uploadImage "https://example.com/pic?size=2" "TOKEN" None)
              Sample.world Sample.start)
  = [ImageDownload "https://example.com/pic?size=2";
     MaterialUpload "image" "bytes" "pic.jpg" "TOKEN"].
Proof.
  apply (uploadImage_remote Sample.world Sample.start "https://example.com/pic?size=2"
           "TOKEN" None eq_refl).
Defined.

(** ** Local image references: the file is missing *)

(** A local reference whose file cannot be read: the call fails with the
    error of the file system, after the one attempt to read
    [localImagePath], and nothing is uploaded.  Without a host prefix, the
    path read is the reference itself. *)
Theorem uploadImage_missing_file w s imageUrl accessToken fileName e :
  JS.startsWith imageUrl "http" = false ->
  fileFromPath w (Publish.localImagePath w imageUrl) = Throw e ->
  let run := Publish.uploadImage imageUrl accessToken fileName in
  result run w s = Throw e /\
  requests (final run w s) = requests s ++ [FileRead (Publish.localImagePath w imageUrl)] /\
  (JS.truthy (Publish.hostImagePath w) = false -> Publish.localImagePath w imageUrl = imageUrl).
Proof.
  intros Hlocal Hfile run. unfold run, Publish.uploadImage. step. rewrite Hlocal. step.
  rewrite Hfile. repeat split; [now settle |].
  intros Hhost. unfold Publish.localImagePath. now rewrite Hhost.
Qed.

(** The empty reference has no file in the mocked world. *)
Lemma uploadImage_missing_file_witness :
  result (Publish.uploadImage "" "TOKEN" None) Sample.world Sample.start
    = Throw (FileError "ENOENT") /\
  requests (final (Publish.uploadImage "" "TOKEN" None) Sample.world Sample.start)
    = [FileRead ""].
Proof.
  destruct (uploadImage_missing_file Sample.world Sample.start "" "TOKEN" None
              (FileError "ENOENT") eq_refl eq_refl) as (H1 & H2 & _).
  split; [exact H1 | exact H2].
Defined.

(** ** Images that are already hosted *)

Lemma mapM_hosted accessToken (srcs : list (option string)) w s :
  forallb hosted srcs = true ->
  mapM (Publish.uploadPromise accessToken) srcs w s
  = (Ok (map (fun src => (src, if JS.truthyOpt src then src else None)) srcs), s).
Proof.
  revert s. induction srcs as [| src srcs IH]; intros s H; [reflexivity |].
  cbn [forallb] in H. apply andb_true_iff in H as [Hsrc H].
  cbn [mapM map]. unfold bind at 1.
  assert (Hone : Publish.uploadPromise accessToken src w s
                 = (Ok (src, if JS.truthyOpt src then src else None), s)).
  { unfold Publish.uploadPromise, hosted in *. destruct src as [u |]; [| reflexivity].
    cbn [JS.truthyOpt]. destruct (JS.truthy u); [| reflexivity].
    cbn [negb orb] in Hsrc. now rewrite Hsrc. }
  rewrite Hone. unfold bind. now rewrite (IH s H).
Qed.

Lemma filterBoolean_kept (srcs : list (option string)) :
  JS.filterBoolean (map (fun src => if JS.truthyOpt src then src else None) srcs)
  = JS.filterBoolean srcs.
Proof.
  induction srcs as [| [u |] srcs IH]; cbn [map JS.filterBoolean JS.truthyOpt];
    [reflexivity | | exact IH].
  destruct (JS.truthy u) eqn:E; cbn [JS.filterBoolean]; [now rewrite E, IH | exact IH].
Qed.

(** When every [img] element of the document is without [src], with an
    empty [src] or on the CDN, relocation sends nothing, leaves every [src]
    as it is (the html is the serialized document), and the fallback id is
    the first non-empty [src]. *)
Theorem uploadImages_all_hosted w s content accessToken :
  JS.includes content "<img" = true ->
  forallb hosted (images (JSDOM w content)) = true ->
  result (Publish.uploadImages content accessToken) w s
  = Ok {| Publish.html := serialize w (JSDOM w content);
          Publish.firstImageId :=
            JS.orStr (head (JS.filterBoolean (images (JSDOM w content)))) "" |} /\
  requests (final (Publish.uploadImages content accessToken) w s) = requests s.
Proof.
  intros Hin Hall. unfold Publish.uploadImages. step. rewrite Hin. cbn [negb]. step.
  set (s1 := final (Publish.log "Uploading images in content") w s).
  assert (Hrun := mapM_hosted accessToken (images (JSDOM w content)) w s1 Hall).
  assert (Hres : result (mapM (Publish.uploadPromise accessToken) (images (JSDOM w content)))
                   w s1
                 = Ok (map (fun src => (src, if JS.truthyOpt src then src else None))
                         (images (JSDOM w content))))
    by (unfold result; now rewrite Hrun).
  assert (Hfin : final (mapM (Publish.uploadPromise accessToken) (images (JSDOM w content)))
                   w s1 = s1)
    by (unfold final; now rewrite Hrun).
  rewrite result_bind, final_bind, Hres, Hfin. step.
  rewrite !map_map. cbn [fst snd]. rewrite map_id, filterBoolean_kept.
  split; [| unfold s1; now settle].
  destruct (JSDOM w content) as [imgs rest]. reflexivity.
Qed.

(** A page whose only image is on the CDN, in the mocked world. *)
Lemma uploadImages_all_hosted_witness :
  result (Publish.uploadImages "<img src='https://mmbiz.qpic.cn/x/0'>" "TOKEN")
    Sample.world Sample.start
  = Ok {| Publish.html :=
            serialize Sample.world (JSDOM Sample.world "<img src='https://mmbiz.qpic.cn/x/0'>");
          Publish.firstImageId := "https://mmbiz.qpic.cn/x/0" |} /\
  requests (final (Publish.uploadImages "<img src='https://mmbiz.qpic.cn/x/0'>" "TOKEN")
              Sample.world Sample.start) = requests Sample.start.
Proof.
  apply (uploadImages_all_hosted Sample.world Sample.start
           "<img src='https://mmbiz.qpic.cn/x/0'>" "TOKEN"); reflexivity.
Defined.

(** ** The Draft Publisher: failures and draft requests *)

(** A call whose token, relocation or cover step fails. *)
Lemma publishToDraft_failing_step w s title content cover appid appsecret e :
  let run := Publish.publishToDraft title content cover appid appsecret in
  (result (Publish.fetchAccessToken appid appsecret) w s = Throw e ->
   result run w s = Throw e /\
   requests (final run w s)
   = requests s ++ [TokenRequest (JS.orStr (JS.or appid (WECHAT_APP_ID w)) "")
                      (JS.orStr (JS.or appsecret (WECHAT_APP_SECRET w)) "")]) /\
  (forall tk,
     result (Publish.fetchAccessToken appid appsecret) w s = Ok tk ->
     result (Publish.uploadImages content (access_token tk)) w s = Throw e ->
     result run w s = Throw e /\
     draftsOf (requests (final run w s)) = draftsOf (requests s)) /\
  (forall tk r,
     result (Publish.fetchAccessToken appid appsecret) w s = Ok tk ->
     result (Publish.uploadImages content (access_token tk)) w s = Ok r ->
     result (Publish.resolveCover cover (Publish.firstImageId r) (access_token tk)) w s
       = Throw e ->
     result run w s = Throw e /\
     draftsOf (requests (final run w s)) = draftsOf (requests s)).
Proof.
  intros run.
  set (s0 := final (Publish.log "Publishing to draft") w s).
  assert (Hany0 : result (Publish.fetchAccessToken appid appsecret) w s0
                  = result (Publish.fetchAccessToken appid appsecret) w s)
    by (apply result_any_state, blind_fetchAccessToken; exact _).
  set (s1 := final (Publish.fetchAccessToken appid appsecret) w s0).
  assert (Hd1 : draftsOf (requests s1) = draftsOf (requests s)).
  { unfold s1. rewrite (drafts_kept _ w s0 (notDraft_fetchAccessToken _ _)).
    unfold s0. now settle. }
  unfold run, Publish.publishToDraft.
  rewrite result_publish_log, final_publish_log. fold s0.
  rewrite result_bind, final_bind, Hany0. fold s1.
  split; [| split].
  - intros ->. split; [reflexivity |]. unfold s1.
    rewrite fetchAccessToken_requests. unfold s0. now settle.
  - intros tk -> Hr.
    assert (Hr1 : result (Publish.uploadImages content (access_token tk)) w s1 = Throw e).
    { rewrite <- Hr. apply result_any_state, blind_uploadImages. exact _. }
    rewrite result_bind, final_bind, Hr1. split; [reflexivity |].
    now rewrite (drafts_kept _ w s1 (notDraft_uploadImages _ _)).
  - intros tk r -> Hr Hc.
    assert (Hr1 : result (Publish.uploadImages content (access_token tk)) w s1 = Ok r).
    { rewrite <- Hr. apply result_any_state, blind_uploadImages. exact _. }
    rewrite result_bind, final_bind, Hr1.
    set (s2 := final (Publish.uploadImages content (access_token tk)) w s1).
    assert (Hc2 : result (Publish.resolveCover cover (Publish.firstImageId r)
                            (access_token tk)) w s2 = Throw e).
    { rewrite <- Hc. apply result_any_state, blind_resolveCover. exact _. }
    rewrite result_bind, final_bind, Hc2. split; [reflexivity |].
    rewrite (drafts_kept _ w s2 (notDraft_resolveCover _ _ _)).
    unfold s2. now rewrite (drafts_kept _ w s1 (notDraft_uploadImages _ _)).
Qed.

(** The first step that fails ends the call with its error.  When it is
    the token step, the token request is the only request of the call; when
    it is the relocation or the cover step, no draft request goes out. *)
Theorem publishToDraft_aborts w s title content cover appid appsecret e :
  let run := Publish.publishToDraft title content cover appid appsecret in
  (result (Publish.fetchAccessToken appid appsecret) w s = Throw e ->
   result run w s = Throw e /\
   requests (final run w s)
   = requests s ++ [TokenRequest (JS.orStr (JS.or appid (WECHAT_APP_ID w)) "")
                      (JS.orStr (JS.or appsecret (WECHAT_APP_SECRET w)) "")]) /\
  (forall tk,
     result (Publish.fetchAccessToken appid appsecret) w s = Ok tk ->
     result (Publish.uploadImages content (access_token tk)) w s = Throw e ->
     result run w s = Throw e /\
     draftsOf (requests (final run w s)) = draftsOf (requests s)) /\
  (forall tk r,
     result (Publish.fetchAccessToken appid appsecret) w s = Ok tk ->
     result (Publish.uploadImages content (access_token tk)) w s = Ok r ->
     result (Publish.resolveCover cover (Publish.firstImageId r) (access_token tk)) w s
       = Throw e ->
     result run w s = Throw e /\
     draftsOf (requests (final run w s)) = draftsOf (requests s)).
Proof. apply publishToDraft_failing_step. Qed.

(** Refused credentials in the mocked world: the call ends with the
    remote's error after its one request. *)
Lemma publishToDraft_aborts_witness :
  result (Publish.publishToDraft "T" "<p>hello</p>" "" (Some "id") (Some "secret"))
    Mock.denied Sample.start
  = Throw (TokenRemoteError 40013 "invalid appid") /\
  requests (final (Publish.publishToDraft "T" "<p>hello</p>" "" (Some "id") (Some "secret"))
              Mock.denied Sample.start)
  = requests Sample.start ++ [TokenRequest "id" "secret"].
Proof.
  apply (publishToDraft_aborts Mock.denied Sample.start "T" "<p>hello</p>" ""
           (Some "id") (Some "secret") (TokenRemoteError 40013 "invalid appid")).
  reflexivity.
Defined.

Lemma notDraft_covered (t : string) (r : Request) : notDraft r -> covered t r.
Proof. destruct r; simpl; auto. unfold notDraft. simpl. discriminate. Qed.

Lemma covered_publishToDraft title content cover appid appsecret :
  sends (covered title) (Publish.publishToDraft title content cover appid appsecret).
Proof.
  unfold Publish.publishToDraft.
  apply sends_bind; [apply sends_publish_log | intros _].
  apply sends_bind;
    [apply (sends_weaken notDraft _ _ (notDraft_covered title)), notDraft_fetchAccessToken
    | intros tk].
  apply sends_bind;
    [apply (sends_weaken notDraft _ _ (notDraft_covered title)), notDraft_uploadImages
    | intros r].
  apply sends_bind;
    [apply (sends_weaken notDraft _ _ (notDraft_covered title)), notDraft_resolveCover
    | intros thumb].
  destruct (JS.truthy thumb) eqn:Hthumb; cbn [negb].
  - apply sends_bind; [apply sends_send; now split | intros _]. repeat run_step.
  - repeat run_step.
Qed.

(** The draft requests of one call: each carries the title of the call
    and a cover id that is not empty; there is at most one; and a call that
    returns has sent one, and returns a media id that is not empty. *)
Theorem publishToDraft_draft_requests w s title content cover appid appsecret :
  let run := Publish.publishToDraft title content cover appid appsecret in
  exists sent,
    requests (final run w s) = requests s ++ sent /\
    Forall (covered title) sent /\
    (length (draftsOf sent) <= 1)%nat /\
    (forall data, result run w s = Ok data ->
       length (draftsOf sent) = 1%nat /\ JS.truthy (draft_media_id data) = true).
Proof.
  intros run.
  destruct (covered_publishToDraft title content cover appid appsecret w s)
    as (sent & Hsent & Hall & _).
  fold run in Hsent. exists sent. split; [exact Hsent |]. split; [exact Hall |].
  assert (Hdrafts : draftsOf (requests (final run w s))
                    = draftsOf (requests s) ++ draftsOf sent)
    by now rewrite Hsent, draftsOf_app.
  assert (Hnone : draftsOf (requests (final run w s)) = draftsOf (requests s) ->
                  draftsOf sent = []).
  { intros H. rewrite H in Hdrafts. rewrite <- (app_nil_r (draftsOf (requests s))) in Hdrafts at 1.
    now apply app_inv_head in Hdrafts. }
  assert (Hone : forall d, draftsOf (requests (final run w s)) = draftsOf (requests s) ++ [d] ->
                           draftsOf sent = [d]).
  { intros d H. rewrite H in Hdrafts. now apply app_inv_head in Hdrafts. }
  split.
  - destruct (result (Publish.fetchAccessToken appid appsecret) w s) as [tk | e] eqn:Htk.
    2:{ destruct (publishToDraft_failing_step w s title content cover appid appsecret e)
          as (Ha & _ & _).
        destruct (Ha Htk) as [_ Hreq]. fold run in Hreq.
        rewrite Hsent in Hreq. apply app_inv_head in Hreq. subst sent. simpl. lia. }
    destruct (result (Publish.uploadImages content (access_token tk)) w s) as [r | e] eqn:Hr.
    2:{ destruct (publishToDraft_failing_step w s title content cover appid appsecret e)
          as (_ & Hb & _).
        destruct (Hb tk Htk Hr) as [_ Hd]. rewrite (Hnone Hd). simpl. lia. }
    destruct (result (Publish.resolveCover cover (Publish.firstImageId r) (access_token tk))
                w s) as [thumb | e] eqn:Hc.
    2:{ destruct (publishToDraft_failing_step w s title content cover appid appsecret e)
          as (_ & _ & Hcc).
        destruct (Hcc tk r Htk Hr Hc) as [_ Hd]. rewrite (Hnone Hd). simpl. lia. }
    destruct (publishToDraft_steps w s title content cover appid appsecret tk r thumb
                Htk Hr Hc) as [Hf Ht].
    destruct (JS.truthy thumb).
    + destruct (Ht eq_refl) as [Hd _]. rewrite (Hone _ Hd). simpl. lia.
    + destruct (Hf eq_refl) as [_ Hd]. rewrite (Hnone Hd). simpl. lia.
  - intros data Hok.
    destruct (publishToDraft_ok _ _ _ _ _ _ _ _ Hok) as (tk & r & thumb & Htk & Hr & Hc & Ht).
    destruct (publishToDraft_steps w s title content cover appid appsecret tk r thumb
                Htk Hr Hc) as [_ Hstep].
    destruct (Hstep Ht) as [Hd Hres]. fold run in Hd, Hres.
    split; [now rewrite (Hone _ Hd) |].
    rewrite Hok in Hres.
    destruct (draftEndpoint w (access_token tk) title (Publish.html r) thumb)
      as [data' | e]; [| discriminate].
    destruct (JS.truthy (draft_media_id data')) eqn:Hm.
    + now injection Hres as ->.
    + destruct (negb (draft_errcode data' =? 0)); discriminate.
Qed.

(** ** The tool handler: the other tools *)



(** ** The log file mirrors the console *)

Lemma mirrored_ret {A} (a : A) : mirrored (ret a).
Proof. intros w s _. exists []. unfold final, ret. simpl. now rewrite !app_nil_r. Qed.

Lemma mirrored_throw {A} (e : Error) : mirrored (@throw A e).
Proof. intros w s _. exists []. unfold final, throw. simpl. now rewrite !app_nil_r. Qed.

Lemma mirrored_reads {A} (f : World -> A) : mirrored (reads f).
Proof. intros w s _. exists []. unfold final, reads. simpl. now rewrite !app_nil_r. Qed.

Lemma mirrored_call {A} (f : World -> Result A) : mirrored (call f).
Proof. intros w s _. exists []. unfold final, call. simpl. now rewrite !app_nil_r. Qed.

Lemma mirrored_gets {A} (f : State -> A) : mirrored (gets f).
Proof. intros w s _. exists []. unfold final, gets. simpl. now rewrite !app_nil_r. Qed.

Lemma mirrored_modify (f : State -> State) :
  (forall s, console (f s) = console s /\ logfile (f s) = logfile s) -> mirrored (modify f).
Proof.
  intros Hf w s _. exists []. unfold final, modify. simpl.
  destruct (Hf s) as [-> ->]. now rewrite !app_nil_r.
Qed.

Lemma mirrored_send (r : Request) : mirrored (send r).
Proof. apply mirrored_modify. intros s. split; reflexivity. Qed.

Lemma mirrored_bind {A B} (m : M A) (f : A -> M B) :
  mirrored m -> (forall a, mirrored (f a)) -> mirrored (bind m f).
Proof.
  intros Hm Hf w s Hw. destruct (Hm w s Hw) as (l1 & C1 & L1).
  unfold final, bind in *. destruct (m w s) as [[a | e] s1]; simpl in *.
  - destruct (Hf a w s1 Hw) as (l2 & C2 & L2). unfold final in *.
    exists (l1 ++ l2). now rewrite C2, L2, C1, L1, !app_assoc.
  - exists l1. now split.
Qed.

Lemma mirrored_tryCatch {A} (m : M A) (h : Error -> M A) :
  mirrored m -> (forall e, mirrored (h e)) -> mirrored (tryCatch m h).
Proof.
  intros Hm Hh w s Hw. destruct (Hm w s Hw) as (l1 & C1 & L1).
  unfold final, tryCatch in *. destruct (m w s) as [[a | e] s1]; simpl in *.
  - exists l1. now split.
  - destruct (Hh e w s1 Hw) as (l2 & C2 & L2). unfold final in *.
    exists (l1 ++ l2). now rewrite C2, L2, C1, L1, !app_assoc.
Qed.

Lemma mirrored_publish_log (msg : string) : mirrored (Publish.log msg).
Proof.
  intros w s Hw. exists [msg].
  unfold final, Publish.log, bind, tryCatch, consoleLog, modify, appendLog.
  cbn [fst snd]. rewrite Hw. split; reflexivity.
Qed.

Lemma mirrored_index_log (msg : string) : mirrored (Index.log msg).
Proof.
  intros w s Hw. exists [msg].
  unfold final, Index.log, bind, tryCatch, consoleLog, modify, appendLog.
  cbn [fst snd]. rewrite Hw. split; reflexivity.
Qed.

Lemma mirrored_mapM {A B} (f : A -> M B) (l : list A) :
  (forall a, mirrored (f a)) -> mirrored (mapM f l).
Proof.
  intros Hf. induction l as [| a l IH]; simpl.
  - apply mirrored_ret.
  - apply mirrored_bind; [apply Hf | intros b].
    apply mirrored_bind; [apply IH | intros bs]. apply mirrored_ret.
Qed.

Ltac mirror_step :=
  match goal with
  | |- mirrored (bind _ _) => apply mirrored_bind; [ | intros ? ]
  | |- mirrored (tryCatch _ _) => apply mirrored_tryCatch; [ | intros ? ]
  | |- mirrored (ret _) => apply mirrored_ret
  | |- mirrored (throw _) => apply mirrored_throw
  | |- mirrored (send _) => apply mirrored_send
  | |- mirrored (reads _) => apply mirrored_reads
  | |- mirrored (call _) => apply mirrored_call
  | |- mirrored (gets _) => apply mirrored_gets
  | |- mirrored (modify _) => apply mirrored_modify; intros ?; split; reflexivity
  | |- mirrored (Publish.log _) => apply mirrored_publish_log
  | |- mirrored (Index.log _) => apply mirrored_index_log
  | |- mirrored (mapM _ _) => apply mirrored_mapM; intros ?
  | |- mirrored (if ?c then _ else _) => destruct c
  | |- mirrored (match ?x with _ => _ end) => destruct x
  end.

Lemma mirrored_uploadImage imageUrl accessToken fileName :
  mirrored (Publish.uploadImage imageUrl accessToken fileName).
Proof. unfold Publish.uploadImage, Publish.uploadMaterial. repeat mirror_step. Qed.

Lemma mirrored_publishToDraft title content cover appid appsecret :
  mirrored (Publish.publishToDraft title content cover appid appsecret).
Proof.
  unfold Publish.publishToDraft, Publish.fetchAccessToken, Publish.uploadImages,
    Publish.resolveCover, Publish.uploadPromise.
  repeat first [ apply mirrored_uploadImage | mirror_step ].
Qed.

Lemma mirrored_callTool request : mirrored (Index.callTool request).
Proof.
  unfold Index.callTool, Index.publishAndReport.
  repeat first [ apply mirrored_publishToDraft | mirror_step ].
Qed.

Lemma mirrored_route req : mirrored (Index.route req).
Proof.
  unfold Index.route, Index.post, Index.handleSessionRequest, Index.handlePost,
    Index.callHandleRequest, Index.transportHandleRequest, Index.onsessioninitialized,
    Index.onclose.
  repeat mirror_step.
Qed.

(** While the log file can be written, every operation writes to it the
    lines it prints to the console, in the same order, and removes none:
    nothing is logged to one and not to the other. *)
Theorem log_file_mirrors_console w s :
  writable w ->
  (forall title content cover appid appsecret,
     exists lines,
       console (final (Publish.publishToDraft title content cover appid appsecret) w s)
         = console s ++ lines /\
       logfile (final (Publish.publishToDraft title content cover appid appsecret) w s)
         = logfile s ++ lines) /\
  (forall request,
     exists lines,
       console (final (Index.callTool request) w s) = console s ++ lines /\
       logfile (final (Index.callTool request) w s) = logfile s ++ lines) /\
  (forall req,
     exists lines,
       console (final (Index.route req) w s) = console s ++ lines /\
       logfile (final (Index.route req) w s) = logfile s ++ lines).
Proof.
  intros Hw. split; [| split]; intros.
  - now apply mirrored_publishToDraft.
  - now apply mirrored_callTool.
  - now apply mirrored_route.
Qed.

(** A stale session id in the mocked world. *)
Lemma log_file_mirrors_console_witness :
  exists lines,
    console (final (Index.route (Sample.request GET (Some "stale-session") ""))
               Sample.world Sample.start) = console Sample.start ++ lines /\
    logfile (final (Index.route (Sample.request GET (Some "stale-session") ""))
               Sample.world Sample.start) = logfile Sample.start ++ lines.
Proof.
  apply (log_file_mirrors_console Sample.world Sample.start). intros lines line. reflexivity.
Defined.

(** ** Every failed tool call is logged *)

Lemma logfile_index_log msg w s :
  writable w -> logfile (final (Index.log msg) w s) = logfile s ++ [msg].
Proof.
  intros Hw. unfold final, Index.log, bind, tryCatch, consoleLog, modify, appendLog.
  cbn [fst snd]. now rewrite Hw.
Qed.

(** While the log file can be written, a tool call that throws has
    written, as its last line, which handler gave up: the theme check, the
    publisher, or the dispatch on the tool name. *)
Theorem callTool_failure_logged w s request e :
  writable w ->
  result (Index.callTool request) w s = Throw e ->
  exists earlier line,
    logfile (final (Index.callTool request) w s) = earlier ++ [line] /\
    In line ["Invalid theme ID"; "Publish error"; "Unknown tool"].
Proof.
  intros Hw. unfold Index.callTool. step.
  set (s1 := final (Index.log "CallToolRequestSchema called") w s).
  destruct (String.eqb (Index.tool_name request) "publish_article").
  - step. destruct (Index.isTruthy (Index.selectTheme w _)); cbn [negb]; step.
    + unfold Index.publishAndReport. rewrite result_tryCatch, final_tryCatch.
      match goal with
      | |- context [result ?m w ?s'] =>
          destruct (result m w s') as [contents | err]; [discriminate |]
      end.
      step. intros _. eexists; exists "Publish error".
      rewrite logfile_index_log by exact Hw. split; [reflexivity | simpl; auto].
    + intros _. eexists; exists "Invalid theme ID".
      rewrite logfile_index_log by exact Hw. split; [reflexivity | simpl; auto].
  - destruct (String.eqb (Index.tool_name request) "list_themes"); step; [discriminate |].
    intros _. eexists; exists "Unknown tool".
    rewrite logfile_index_log by exact Hw. split; [reflexivity | simpl; auto].
Qed.

(** An article without image and without cover, in the mocked world. *)
Lemma callTool_failure_logged_witness :
  exists earlier line,
    logfile (final (Index.callTool
                      {| Index.tool_name := "publish_article";
                         Index.arg_content := Some "<p>hello</p>";
                         Index.arg_theme_id := None;
                         Index.arg_appid := None;
                         Index.arg_appsecret := None |}) Sample.world Sample.start)
      = earlier ++ [line] /\
    In line ["Invalid theme ID"; "Publish error"; "Unknown tool"].
Proof.
  apply (callTool_failure_logged Sample.world Sample.start _ MissingCoverError).
  - intros lines line. reflexivity.
  - reflexivity.
Defined.

(** ** Theme selection *)

(** The entry stored under a key, in a registry that has each key once. *)
Lemma lookupTheme_In registry key theme :
  List.NoDup (map fst registry) -> In (key, theme) registry ->
  Index.lookupTheme registry key = Some theme.
Proof.
  unfold Index.lookupTheme. induction registry as [| [k t] rest IH]; intros Hnd Hin;
    [contradiction |].
  cbn [map fst] in Hnd. apply List.NoDup_cons_iff in Hnd as [Hfresh Hnd].
  cbn [find fst]. destruct (String.eqb_spec k key) as [-> | Hne].
  - destruct Hin as [[= <-] | Hin]; [reflexivity |].
    elim Hfresh. apply in_map_iff. now exists (key, theme).
  - destruct Hin as [[= Hk _] | Hin]; [now elim Hne |]. now apply IH.
Qed.

(** The first theme of the registry with a given name, up to case. *)
Lemma findByName_first w themeId pre key theme post :
  themes w = pre ++ (key, theme) :: post ->
  toLowerCase w (theme_name theme) = toLowerCase w themeId ->
  (forall k t, In (k, t) pre -> toLowerCase w (theme_name t) <> toLowerCase w themeId) ->
  Index.findByName w themeId = Some theme.
Proof.
  intros Hreg Hname Hpre. unfold Index.findByName. rewrite Hreg. clear Hreg.
  induction pre as [| [k t] pre IH]; cbn [app map snd find].
  - now rewrite Hname, String.eqb_refl.
  - destruct (String.eqb_spec (toLowerCase w (theme_name t)) (toLowerCase w themeId))
      as [E | _].
    + now elim (Hpre k t (or_introl eq_refl)).
    + apply IH. intros k' t' Hin. apply (Hpre k' t'). now right.
Qed.

Lemma findByName_none w themeId :
  (forall k t, In (k, t) (themes w) ->
     toLowerCase w (theme_name t) <> toLowerCase w themeId) ->
  Index.findByName w themeId = None.
Proof.
  intros Hall. unfold Index.findByName.
  destruct (find _ (map snd (themes w))) as [t |] eqn:E; [| reflexivity].
  apply find_some in E as [Hin Hname]. apply String.eqb_eq in Hname.
  apply in_map_iff in Hin as ([k t'] & Ht & Hin). simpl in Ht. subst t'.
  now elim (Hall k t Hin).
Qed.

(** What [theme] is at line 130, for a theme id that is not empty and a
    registry that holds each key once.

    - An id that is a key of the registry selects the entry under it,
      whatever the names are.
    - An id that is no key but a name every object inherits selects that
      inherited value, which is no theme.
    - Any other id selects the first theme of the registry, in the order
      of [Object.values], whose name equals the id once both are lowered;
    - and nothing when no theme has such a name. *)
Theorem selectTheme_registered w themeId :
  themeId <> "" ->
  List.NoDup (map fst (themes w)) ->
  let stored := exists theme, In (themeId, theme) (themes w) in
  let sameName (theme : Theme) :=
    toLowerCase w (theme_name theme) = toLowerCase w themeId in
  (forall theme, In (themeId, theme) (themes w) ->
     Index.selectTheme w themeId = Index.Own theme) /\
  (~ stored -> In themeId Index.objectPrototypeKeys ->
     Index.selectTheme w themeId = Index.Inherited) /\
  (~ stored -> ~ In themeId Index.objectPrototypeKeys ->
     forall pre key theme post,
       themes w = pre ++ (key, theme) :: post ->
       sameName theme ->
       (forall k t, In (k, t) pre -> ~ sameName t) ->
       Index.selectTheme w themeId = Index.Own theme) /\
  (~ stored -> ~ In themeId Index.objectPrototypeKeys ->
     (forall k t, In (k, t) (themes w) -> ~ sameName t) ->
     Index.selectTheme w themeId = Index.Undefined).
Proof.
  intros Hne Hnd stored sameName. apply truthy_true in Hne.
  assert (Habsent : ~ stored -> Index.lookupTheme (themes w) themeId = None).
  { intros Hnot. apply lookupTheme_absent. intros k theme Hin ->. apply Hnot.
    now exists theme. }
  unfold Index.selectTheme, Index.themeProperty. rewrite Hne.
  split; [| split; [| split]].
  - intros theme Hin. now rewrite (lookupTheme_In _ _ _ Hnd Hin).
  - intros Hnot Hin. now rewrite (Habsent Hnot), (inheritedProperty_In themeId Hin).
  - intros Hnot Hown pre key theme post Hreg Hname Hpre.
    rewrite (Habsent Hnot), (inheritedProperty_not_In themeId Hown). cbn [Index.isTruthy negb].
    now rewrite (findByName_first w themeId pre key theme post Hreg Hname Hpre).
  - intros Hnot Hown Hall.
    rewrite (Habsent Hnot), (inheritedProperty_not_In themeId Hown). cbn [Index.isTruthy negb].
    now rewrite (findByName_none w themeId Hall).
Qed.

(** In the mocked world: the theme [OrangeHeart] asked for by its name in
    another case, and by its id. *)
Lemma selectTheme_registered_witness :
  Index.selectTheme Sample.world "orangeHEART" = Index.Own Sample.orangeheart /\
  Index.selectTheme Sample.world "orangeheart" = Index.Own Sample.orangeheart.
Proof.
  assert (Hnd : List.NoDup (map fst (themes Sample.world))).
  { repeat constructor; simpl; intuition discriminate. }
  split.
  - destruct (selectTheme_registered Sample.world "orangeHEART" ltac:(discriminate) Hnd)
      as (_ & _ & Hname & _).
    apply (Hname) with (pre := [("default", Sample.defaultTheme)]) (key := "orangeheart")
                       (post := []).
    + intros [theme [[= H _] | [[= H _] | []]]]; discriminate H.
    + simpl. intuition discriminate.
    + reflexivity.
    + reflexivity.
    + intros k t [[= <- <-] | []]. discriminate.
  - destruct (selectTheme_registered Sample.world "orangeheart" ltac:(discriminate) Hnd)
      as (Hid & _).
    apply Hid. simpl. auto.
Defined.

(** ** The dispatcher: the life of a session *)

Lemma result_modify {B} (f : State -> State) (k : unit -> M B) w s :
  result (bind (modify f) k) w s = result (k tt) w (f s).
Proof. reflexivity. Qed.

Lemma final_modify {B} (f : State -> State) (k : unit -> M B) w s :
  final (bind (modify f) k) w s = final (k tt) w (f s).
Proof. reflexivity. Qed.

Lemma final_modify_last (f : State -> State) w s : final (modify f) w s = f s.
Proof. reflexivity. Qed.

Lemma result_modify_last (f : State -> State) w s : result (modify f) w s = Ok tt.
Proof. reflexivity. Qed.

Ltac walk :=
  repeat first
    [ progress step
    | rewrite result_modify | rewrite final_modify
    | rewrite result_modify_last | rewrite final_modify_last ].

Lemma getProperty_own {A} (m : gmap string A) (key : string) (a : A) :
  m !! key = Some a -> Index.getProperty m key = Index.Own a.
Proof. intros H. unfold Index.getProperty. now rewrite H. Qed.

(** The two callbacks always return. *)
Lemma onsessioninitialized_run transport server sid w s :
  result (Index.onsessioninitialized transport server sid) w s = Ok tt /\
  transports (final (Index.onsessioninitialized transport server sid) w s)
    = <[sid := transport]> (transports s) /\
  servers (final (Index.onsessioninitialized transport server sid) w s)
    = <[sid := server]> (servers s) /\
  created (final (Index.onsessioninitialized transport server sid) w s) = created s /\
  requests (final (Index.onsessioninitialized transport server sid) w s) = requests s.
Proof.
  unfold Index.onsessioninitialized. walk. repeat split; now settle.
Qed.

Lemma onclose_run transport w s :
  result (Index.onclose transport) w s = Ok tt /\
  created (final (Index.onclose transport) w s) = created s /\
  requests (final (Index.onclose transport) w s) = requests s /\
  (forall key, t_sessionId transport = Some key -> key <> "" ->
     transports (final (Index.onclose transport) w s) = delete key (transports s) /\
     servers (final (Index.onclose transport) w s) = delete key (servers s)) /\
  (JS.truthyOpt (t_sessionId transport) = false ->
     transports (final (Index.onclose transport) w s) = transports s /\
     servers (final (Index.onclose transport) w s) = servers s).
Proof.
  unfold Index.onclose. walk.
  destruct (JS.truthyOpt (t_sessionId transport)) eqn:E; walk.
  - split; [reflexivity |]. split; [now settle |]. split; [now settle |]. split.
    + intros key Hkey _. rewrite Hkey. cbn [JS.orStr].
      rewrite Hkey in E. cbn [JS.truthyOpt] in E. rewrite E. split; now settle.
    + discriminate.
  - split; [reflexivity |]. split; [now settle |]. split; [now settle |]. split.
    + intros key Hkey Hne. rewrite Hkey in E. cbn [JS.truthyOpt] in E.
      apply truthy_true in Hne. congruence.
    + intros _. split; now settle.
Qed.

(** What [handleRequest] on a transport object gives is what the SDK
    decided: the callbacks do not change it. *)
Lemma transportHandleRequest_result transport server req w s :
  result (Index.transportHandleRequest transport server req) w s
  = so_result (handleRequest w transport req).
Proof.
  unfold Index.transportHandleRequest. walk.
  set (outcome := handleRequest w transport req).
  rewrite result_bind.
  assert (H1 : forall s0,
            result match so_initialized outcome, server with
                   | Some sid, Some srv =>
                       Index.onsessioninitialized
                         match so_initialized outcome with
                         | Some sid0 => {| t_ref := t_ref transport; t_sessionId := Some sid0 |}
                         | None => transport
                         end srv sid
                   | _, _ => ret tt
                   end w s0 = Ok tt).
  { intros s0. destruct (so_initialized outcome), server; try reflexivity.
    apply onsessioninitialized_run. }
  rewrite H1. rewrite result_bind.
  assert (H2 : forall tr s0,
            result (if so_closed outcome then Index.onclose tr else ret tt) w s0 = Ok tt).
  { intros tr s0. destruct (so_closed outcome); [apply onclose_run | reflexivity]. }
  rewrite H2. unfold result, call. reflexivity.
Qed.

(** A request that bears the id of a session. *)
Lemma route_known w s req sid t :
  sessionHeader req = Some sid ->
  sid <> "" ->
  transports s !! sid = Some t ->
  result (Index.route req) w s
  = Ok match method req with
       | POST => postAnswer req (so_result (handleRequest w t req))
       | _ => match so_result (handleRequest w t req) with
              | Ok written => Handled written
              | Throw _ => PlainText 500 "Internal server error"
              end
       end.
Proof.
  intros Hsid Hne Ht. apply truthy_true in Hne.
  assert (Hget : forall s', transports s' = transports s ->
                   Index.getProperty (transports s') sid = Index.Own t).
  { intros s' ->. now apply getProperty_own. }
  unfold Index.route. destruct (method req).
  - unfold Index.post. rewrite Hsid. cbn [JS.orStr JS.truthyOpt]. rewrite Hne. walk.
    rewrite !Hget by now settle. cbn [Index.isTruthy andb]. walk.
    unfold Index.handlePost. rewrite result_tryCatch, result_bind.
    cbn [Index.callHandleRequest]. rewrite transportHandleRequest_result.
    destruct (so_result (handleRequest w t req)); walk; reflexivity.
  - unfold Index.handleSessionRequest. rewrite Hsid. cbn [JS.orStr JS.truthyOpt].
    rewrite Hne. walk. rewrite !Hget by now settle. cbn [Index.isTruthy orb negb]. walk.
    rewrite result_tryCatch, result_bind.
    cbn [Index.callHandleRequest]. rewrite transportHandleRequest_result.
    destruct (so_result (handleRequest w t req)); walk; reflexivity.
  - unfold Index.handleSessionRequest. rewrite Hsid. cbn [JS.orStr JS.truthyOpt].
    rewrite Hne. walk. rewrite !Hget by now settle. cbn [Index.isTruthy orb negb]. walk.
    rewrite result_tryCatch, result_bind.
    cbn [Index.callHandleRequest]. rewrite transportHandleRequest_result.
    destruct (so_result (handleRequest w t req)); walk; reflexivity.
Qed.

(** A request that bears the id of an active session reaches the transport
    registered under that id, and is answered with what the transport
    writes.  An error of the transport does not escape: a POST is answered
    with status 500 and the JSON-RPC error -32001, carrying the error and
    the id of the request; a GET or DELETE with status 500 and a plain
    text. *)
Theorem known_session_routed w s req sid t :
  sessionHeader req = Some sid ->
  sid <> "" ->
  transports s !! sid = Some t ->
  result (Index.route req) w s
  = Ok match method req with
       | POST =>
           match so_result (handleRequest w t req) with
           | Ok written => Handled written
           | Throw err =>
               JsonRpcError 500 (-32001) "Internal server error" (Some err) (bodyId req)
           end
       | _ =>
           match so_result (handleRequest w t req) with
           | Ok written => Handled written
           | Throw _ => PlainText 500 "Internal server error"
           end
       end.
Proof.
  intros Hsid Hne Ht. rewrite (route_known w s req sid t Hsid Hne Ht).
  destruct (method req); reflexivity.
Qed.

(** The session opened in the mocked world, used by a POST. *)
Lemma known_session_routed_witness :
  result (Index.route (Sample.request POST (Some "uuid-1") "ping")) Sample.world Mock.opened
  = Ok (Handled "done").
Proof.
  apply (known_session_routed Sample.world Mock.opened
           (Sample.request POST (Some "uuid-1") "ping") "uuid-1"
           {| t_ref := 0; t_sessionId := Some "uuid-1" |}).
  - reflexivity.
  - discriminate.
  - reflexivity.
Defined.

Lemma final_call_last {A} (g : World -> Result A) w s : final (call g) w s = s.
Proof. reflexivity. Qed.

(** The transport initializes a session, and does not close. *)
Lemma transportHandleRequest_opens transport server req sid w s :
  so_initialized (handleRequest w transport req) = Some sid ->
  so_closed (handleRequest w transport req) = false ->
  let run := Index.transportHandleRequest transport (Some server) req in
  transports (final run w s)
    = <[sid := {| t_ref := t_ref transport; t_sessionId := Some sid |}]> (transports s) /\
  servers (final run w s) = <[sid := server]> (servers s) /\
  created (final run w s) = created s /\
  requests (final run w s) = requests s.
Proof.
  intros Hinit Hclosed run. unfold run, Index.transportHandleRequest. walk.
  rewrite Hinit, Hclosed. rewrite final_bind.
  destruct (onsessioninitialized_run
              {| t_ref := t_ref transport; t_sessionId := Some sid |} server sid w s)
    as (-> & Ht & Hs & Hc & Hr).
  walk. rewrite final_call_last. auto.
Qed.

(** The transport closes the session it is registered under. *)
Lemma transportHandleRequest_closes transport server req sid w s :
  so_initialized (handleRequest w transport req) = None ->
  so_closed (handleRequest w transport req) = true ->
  t_sessionId transport = Some sid ->
  sid <> "" ->
  let run := Index.transportHandleRequest transport server req in
  transports (final run w s) = delete sid (transports s) /\
  servers (final run w s) = delete sid (servers s) /\
  created (final run w s) = created s /\
  requests (final run w s) = requests s.
Proof.
  intros Hinit Hclosed Hsid Hne run. unfold run, Index.transportHandleRequest. walk.
  rewrite Hinit, Hclosed. walk. rewrite final_bind.
  destruct (onclose_run transport w s) as (-> & Hc & Hr & Hdel & _).
  destruct (Hdel sid Hsid Hne) as [Ht Hs].
  rewrite final_call_last. auto.
Qed.

Lemma final_tryCatch_maps {A} (m : M A) (h : Error -> M A) w s :
  (forall e s', obs_eq (final (h e) w s') s') ->
  obs_eq (final (tryCatch m h) w s) (final m w s).
Proof.
  intros Hh. rewrite final_tryCatch. destruct (result m w s); [apply obs_eq_refl | apply Hh].
Qed.

Lemma obs_eq_trans s1 s2 s3 : obs_eq s1 s2 -> obs_eq s2 s3 -> obs_eq s1 s3.
Proof. unfold obs_eq. intuition congruence. Qed.

(** The session maps after [handlePost] are those after the transport. *)
Lemma handlePost_maps transport server req w s :
  obs_eq (final (Index.handlePost (Index.Own transport) server req) w s)
         (final (Index.transportHandleRequest transport server req) w s).
Proof.
  unfold Index.handlePost. eapply obs_eq_trans.
  - apply final_tryCatch_maps. intros e s'. walk. unfold obs_eq. now settle.
  - rewrite final_bind. cbn [Index.callHandleRequest].
    destruct (result (Index.transportHandleRequest transport server req) w s);
      [| apply obs_eq_refl].
    walk. unfold obs_eq. now settle.
Qed.

(** A request that bears an id that no session has. *)
Lemma route_unknown w s req sid :
  sessionHeader req = Some sid ->
  sid <> "" ->
  transports s !! sid = None ->
  ~ In sid Index.objectPrototypeKeys ->
  result (Index.route req) w s
  = Ok match method req with
       | POST => JsonRpcError 400 (-32000) "Bad Request: No valid session ID provided" None None
       | _ => PlainText 400 "Invalid or missing session ID"
       end.
Proof.
  intros Hsid Hne Hnone Hown. apply truthy_true in Hne.
  assert (Hget : forall s', transports s' = transports s ->
                   Index.getProperty (transports s') sid = Index.Undefined).
  { intros s' ->. now apply getProperty_undefined. }
  unfold Index.route. destruct (method req).
  - unfold Index.post. rewrite Hsid. cbn [JS.orStr JS.truthyOpt]. rewrite Hne.
    walk. rewrite !Hget by now settle. cbn [Index.isTruthy andb negb]. now walk.
  - unfold Index.handleSessionRequest. rewrite Hsid. cbn [JS.orStr JS.truthyOpt].
    rewrite Hne. walk. rewrite !Hget by now settle. cbn [Index.isTruthy orb negb]. now walk.
  - unfold Index.handleSessionRequest. rewrite Hsid. cbn [JS.orStr JS.truthyOpt].
    rewrite Hne. walk. rewrite !Hget by now settle. cbn [Index.isTruthy orb negb]. now walk.
Qed.

(** An initialization request without session id makes one transport and
    one server.  When the transport initializes the session under [sid]
    (and does not close), both are registered under [sid], one more
    transport has been made, and a later request that bears [sid] reaches
    that transport. *)
Theorem session_opened w s req sid :
  method req = POST ->
  JS.truthyOpt (sessionHeader req) = false ->
  isInitializeRequest w (body req) = true ->
  let fresh := {| t_ref := created s; t_sessionId := None |} in
  let registered := {| t_ref := created s; t_sessionId := Some sid |} in
  so_initialized (handleRequest w fresh req) = Some sid ->
  so_closed (handleRequest w fresh req) = false ->
  sid <> "" ->
  let after := final (Index.route req) w s in
  result (Index.route req) w s = Ok (postAnswer req (so_result (handleRequest w fresh req))) /\
  transports after = <[sid := registered]> (transports s) /\
  servers after = <[sid := Index.newServer]> (servers s) /\
  created after = S (created s) /\
  (forall w' next,
     sessionHeader next = Some sid ->
     result (Index.route next) w' after
     = Ok match method next with
          | POST => postAnswer next (so_result (handleRequest w' registered next))
          | _ => match so_result (handleRequest w' registered next) with
                 | Ok written => Handled written
                 | Throw _ => PlainText 500 "Internal server error"
                 end
          end).
Proof.
  intros Hpost Hnoid Hinit fresh registered Hsid Hopen Hne after.
  assert (Hmaps : transports after = <[sid := registered]> (transports s) /\
                  servers after = <[sid := Index.newServer]> (servers s) /\
                  created after = S (created s)).
  { unfold after, Index.route. rewrite Hpost. unfold Index.post. rewrite Hnoid.
    cbn [andb negb]. walk. rewrite Hinit. cbn [andb]. walk.
    match goal with
    | |- context [final (Index.handlePost (Index.Own ?t) ?srv req) w ?s0] =>
        destruct (handlePost_maps t srv req w s0) as (_ & Ht & Hs & Hc);
        assert (Hfresh : t = fresh) by (unfold fresh; f_equal; now settle);
        rewrite Hfresh in *;
        destruct (transportHandleRequest_opens fresh Index.newServer req sid w s0 Hsid Hopen)
          as (Ht' & Hs' & Hc' & _)
    end.
    rewrite Ht, Hs, Hc, Ht', Hs', Hc'. cbn [t_ref fresh]. unfold registered.
    repeat split; now settle. }
  split; [| split; [apply Hmaps | split; [apply Hmaps | split; [apply Hmaps |]]]].
  - unfold Index.route. rewrite Hpost. unfold Index.post. rewrite Hnoid.
    cbn [andb negb]. walk. rewrite Hinit. cbn [andb]. walk.
    unfold Index.handlePost. rewrite result_tryCatch, result_bind.
    cbn [Index.callHandleRequest]. rewrite transportHandleRequest_result.
    replace (created _) with (created s) by now settle. fold fresh.
    destruct (so_result (handleRequest w fresh req)); walk; reflexivity.
  - intros w' next Hnext. apply (route_known w' after next sid registered Hnext Hne).
    destruct Hmaps as (-> & _). apply lookup_insert_eq.
Qed.

(** The first session of the mocked world. *)
Lemma session_opened_witness :
  let req := Sample.request POST None "initialize" in
  let after := final (Index.route req) Sample.world Sample.start in
  result (Index.route req) Sample.world Sample.start = Ok (Handled "done") /\
  transports after = <[ "uuid-1" := {| t_ref := 0; t_sessionId := Some "uuid-1" |} ]> ∅ /\
  servers after = <[ "uuid-1" := Index.newServer ]> ∅ /\
  created after = 1%nat.
Proof.
  intros req after.
  destruct (session_opened Sample.world Sample.start req "uuid-1"
              eq_refl eq_refl eq_refl eq_refl eq_refl ltac:(discriminate))
    as (H1 & H2 & H3 & H4 & _).
  repeat split; assumption.
Defined.

(** The state in which a request that bears the id of a session reaches
    the transport, and the session maps it leaves. *)
Lemma route_known_maps w s req sid t :
  sessionHeader req = Some sid ->
  sid <> "" ->
  transports s !! sid = Some t ->
  exists s1,
    obs_eq s1 s /\
    obs_eq (final (Index.route req) w s)
           (final (Index.transportHandleRequest t (servers s !! sid) req) w s1).
Proof.
  intros Hsid Hne Ht. apply truthy_true in Hne.
  assert (Hget : forall s', transports s' = transports s ->
                   Index.getProperty (transports s') sid = Index.Own t).
  { intros s' ->. now apply getProperty_own. }
  unfold Index.route. destruct (method req).
  - unfold Index.post. rewrite Hsid. cbn [JS.orStr JS.truthyOpt]. rewrite Hne. walk.
    rewrite !Hget by now settle. cbn [Index.isTruthy andb]. walk.
    eexists. split.
    2:{ replace (servers _ !! sid) with (servers s !! sid) by (now settle).
        apply handlePost_maps. }
    unfold obs_eq. now settle.
  - unfold Index.handleSessionRequest. rewrite Hsid. cbn [JS.orStr JS.truthyOpt].
    rewrite Hne. walk. rewrite !Hget by now settle. cbn [Index.isTruthy orb negb]. walk.
    eexists. split.
    2:{ replace (servers _ !! sid) with (servers s !! sid) by (now settle).
        eapply obs_eq_trans.
        - apply final_tryCatch_maps. intros e s'. walk. unfold obs_eq. now settle.
        - rewrite final_bind. cbn [Index.callHandleRequest].
          match goal with
          | |- context [result ?m w ?s0] => destruct (result m w s0); [| apply obs_eq_refl]
          end.
          walk. unfold obs_eq. now settle. }
    unfold obs_eq. now settle.
  - unfold Index.handleSessionRequest. rewrite Hsid. cbn [JS.orStr JS.truthyOpt].
    rewrite Hne. walk. rewrite !Hget by now settle. cbn [Index.isTruthy orb negb]. walk.
    eexists. split.
    2:{ replace (servers _ !! sid) with (servers s !! sid) by (now settle).
        eapply obs_eq_trans.
        - apply final_tryCatch_maps. intros e s'. walk. unfold obs_eq. now settle.
        - rewrite final_bind. cbn [Index.callHandleRequest].
          match goal with
          | |- context [result ?m w ?s0] => destruct (result m w s0); [| apply obs_eq_refl]
          end.
          walk. unfold obs_eq. now settle. }
    unfold obs_eq. now settle.
Qed.

(** When the transport of a session signals that it closed, the entries
    of that session are removed from both maps, the other entries stay,
    and a later request that bears the id is rejected with status 400. *)
Theorem session_closed w s req sid t :
  sessionHeader req = Some sid ->
  sid <> "" ->
  transports s !! sid = Some t ->
  t_sessionId t = Some sid ->
  so_initialized (handleRequest w t req) = None ->
  so_closed (handleRequest w t req) = true ->
  ~ In sid Index.objectPrototypeKeys ->
  let after := final (Index.route req) w s in
  transports after = delete sid (transports s) /\
  servers after = delete sid (servers s) /\
  (forall w' next,
     sessionHeader next = Some sid ->
     result (Index.route next) w' after
     = Ok match method next with
          | POST =>
              JsonRpcError 400 (-32000) "Bad Request: No valid session ID provided" None None
          | _ => PlainText 400 "Invalid or missing session ID"
          end).
Proof.
  intros Hsid Hne Ht Hown Hinit Hclosed Hkey after.
  destruct (route_known_maps w s req sid t Hsid Hne Ht) as (s1 & (_ & E1 & E2 & _) & Hobs).
  destruct Hobs as (_ & Ht' & Hs' & _).
  destruct (transportHandleRequest_closes t (servers s !! sid) req sid w s1
              Hinit Hclosed Hown Hne) as (Hdt & Hds & _).
  assert (Hmaps : transports after = delete sid (transports s) /\
                  servers after = delete sid (servers s)).
  { unfold after. rewrite Ht', Hs', Hdt, Hds, E1, E2. now split. }
  split; [apply Hmaps | split; [apply Hmaps |]].
  intros w' next Hnext. apply (route_unknown w' after next sid Hnext Hne); [| exact Hkey].
  destruct Hmaps as [-> _]. apply lookup_delete_eq.
Qed.

(** The session of the mocked world, closed by a DELETE. *)
Lemma session_closed_witness :
  let after := final (Index.route (Sample.request DELETE (Some "uuid-1") ""))
                 Sample.world Mock.opened in
  transports after = delete "uuid-1" (transports Mock.opened) /\
  servers after = delete "uuid-1" (servers Mock.opened).
Proof.
  intros after.
  destruct (session_closed Sample.world Mock.opened
              (Sample.request DELETE (Some "uuid-1") "") "uuid-1"
              {| t_ref := 0; t_sessionId := Some "uuid-1" |}
              eq_refl ltac:(discriminate) eq_refl eq_refl eq_refl eq_refl)
    as (H1 & H2 & _).
  - simpl. intros H. repeat (destruct H as [H | H]; [discriminate H |]). exact H.
  - split; assumption.
Defined.

(** ** The session maps stay coherent *)













(** ** Requests without a session id *)

(** A request without a session id (or with an empty one) that does not
    initialize a session is rejected with status 400: a POST with the
    JSON-RPC error -32000, a GET or DELETE with a plain text.  No transport
    is made and the session maps are left as they were. *)
Theorem missing_session_id w s req :
  JS.truthyOpt (sessionHeader req) = false ->
  (method req = POST -> isInitializeRequest w (body req) = false) ->
  result (Index.route req) w s
  = Ok match method req with
       | POST => JsonRpcError 400 (-32000) "Bad Request: No valid session ID provided" None None
       | _ => PlainText 400 "Invalid or missing session ID"
       end /\
  transports (final (Index.route req) w s) = transports s /\
  servers (final (Index.route req) w s) = servers s /\
  created (final (Index.route req) w s) = created s /\
  requests (final (Index.route req) w s) = requests s.
Proof.
  intros Hnone Hinit. unfold Index.route. destruct (method req).
  - unfold Index.post. rewrite Hnone. cbn [andb negb]. walk.
    rewrite (Hinit eq_refl). walk. repeat split; now settle.
  - unfold Index.handleSessionRequest. rewrite Hnone. cbn [orb negb]. walk.
    repeat split; now settle.
  - unfold Index.handleSessionRequest. rewrite Hnone. cbn [orb negb]. walk.
    repeat split; now settle.
Qed.

(** A tool call that arrives before any session was opened. *)
Lemma missing_session_id_witness :
  result (Index.route (Sample.request POST None "tools/call")) Sample.world Sample.start
  = Ok (JsonRpcError 400 (-32000) "Bad Request: No valid session ID provided" None None).
Proof.
  apply (missing_session_id Sample.world Sample.start (Sample.request POST None "tools/call")).
  - reflexivity.
  - reflexivity.
Defined.

(** ** The outcome of a publication *)

(** A [publish_article] call whose theme is found ends as [publishToDraft]
    does, on the title and cover of the front matter and on the body
    rendered with the id of the selected theme: an error of the publisher
    reaches the caller as it was thrown, a success is reported as one text
    that carries the media id of the draft, and the requests sent are those
    of the publisher. *)
Theorem publish_article_outcome w s request theme :
  Index.tool_name request = "publish_article" ->
  Index.selectTheme w (JS.orStr (Index.arg_theme_id request) "") = Index.Own theme ->
  let fm := handleFrontMatter w (JS.orStr (Index.arg_content request) "") in
  let run :=
    Publish.publishToDraft (JS.nullish (fm_title fm) "this is title")
      (renderMarkdown w (fm_body fm) (Some (theme_id theme)))
      (JS.nullish (fm_cover fm) "") (Index.arg_appid request) (Index.arg_appsecret request) in
  result (Index.callTool request) w s
  = match result run w s with
    | Ok response => Ok [Index.TextContent (Index.publishedText (draft_media_id response))]
    | Throw e => Throw e
    end /\
  requests (final (Index.callTool request) w s) = requests (final run w s).
Proof.
  intros Hname Hsome fm run.
  assert (Hrun := callTool_publishes w s request Hname).
  cbv zeta in Hrun. rewrite Hsome in Hrun. exact (Hrun eq_refl).
Qed.

(** An article with one image, in the mocked world. *)
Lemma publish_article_outcome_witness :
  requests (final (Index.callTool (Sample.publish None)) Sample.world Sample.start)
  = requests (final (Publish.publishToDraft "this is title"
                       (JS.orStr (Index.arg_content (Sample.publish None)) "") "" None None)
                Sample.world Sample.start).
Proof.
  apply (publish_article_outcome Sample.world Sample.start (Sample.publish None)
           Sample.defaultTheme eq_refl eq_refl).
Defined.
